(** * Job kickoff / status core of the interview-evaluator API server

    Shallow embedding of [api_server.py]: the in-memory [executions]
    dictionary, the [kickoff] and [get_status] handlers and the background
    thread body [run_crew_async], followed by the properties of the job
    life cycle proved about them.

    The dictionary maps a kickoff id to a dictionary object.  Python binds
    names to objects, not to copies: [execution = executions[kickoff_id]] in
    [get_status] is an alias of the object the worker thread keeps writing
    to.  The model therefore has a store of dictionary objects ([heap]) and
    [executions] maps each key to the address of its object.

    Threads interleave.  A worker thread advances one source statement at a
    time and a status handler one subscript read at a time.  The [kickoff]
    handler runs as one step: it has no [await], what it draws
    ([uuid.uuid4()], [datetime.now()]) does not depend on the shared state,
    and its only shared accesses are the store on line 124 and
    [thread.start()], which no step of another thread can tell apart from a
    start immediately after the store.

    What the process cannot decide is an input of the step that needs it:
    the identifier drawn, the time stamps, and what the crew does (return an
    object or raise). *)

From stdpp Require Import gmap strings list fin_maps.

Open Scope string_scope.
Open Scope list_scope.
Open Scope nat_scope.
Local Set Warnings "-register-all,-clear-no-such-hyp".

(** * The program *)

(** ** Values *)

(** A parsed JSON document.  Objects keep their fields in document order. *)
Inductive json :=
| JNull
| JBool (b : bool)
| JNumber (literal : string)
| JString (s : string)
| JArray (items : list json)
| JObject (fields : list (string * json)).

(** Key lookup in a parsed object: on a repeated key the last occurrence is
    the one a Python [dict] retains. *)
Fixpoint dict_get (k : string) (fields : list (string * json)) : option json :=
  match fields with
  | [] => None
  | (k', v) :: rest =>
      match dict_get k rest with
      | Some v' => Some v'
      | None => if decide (k' = k) then Some v else None
      end
  end.

(** What the worker needs of the object returned by
    [crew_instance.crew().kickoff(inputs=inputs)]: its [str()] and, when it
    has one, its [raw] attribute (an object again). *)
Inductive pyobj :=
| PyObj (str_ : string) (raw_attr : option pyobj).

Definition py_str (o : pyobj) : string :=
  match o with PyObj s _ => s end.

Definition getattr_raw (o : pyobj) : option pyobj :=
  match o with PyObj _ r => r end.

(** Exceptions ([Exception] instances) seen by the worker: a [KeyError] from
    a subscript on [executions], or whatever the crew raised, carried with
    its [str()]. *)
Inductive exn :=
| KeyError (key : string)
| Raised (description : string).

(** [str(e)]; for a [KeyError] Python shows the quoted key. *)
Definition exn_str (e : exn) : string :=
  match e with
  | KeyError k => "'" +:+ k +:+ "'"
  | Raised d => d
  end.

(** Result of the opaque call on line 80. *)
Inductive outcome :=
| Returns (result : pyobj)
| Raises (e : exn).

(** ** The execution dictionary stored per kickoff id (lines 124-131) *)

(** The value stored under ["last_executed_task"] (lines 85-88). *)
Record task := {
  output : string;
  task_name : string;
}.

Record execution := {
  state : string;
  started_at : string;
  completed_at : option string;
  last_executed_task : option task;
  error : option string;
  inputs : list (string * json);
}.

Definition set_state (v : string) (d : execution) : execution :=
  {| state := v; started_at := started_at d; completed_at := completed_at d;
     last_executed_task := last_executed_task d; error := error d;
     inputs := inputs d |}.

Definition set_completed_at (v : string) (d : execution) : execution :=
  {| state := state d; started_at := started_at d; completed_at := Some v;
     last_executed_task := last_executed_task d; error := error d;
     inputs := inputs d |}.

Definition set_last_executed_task (v : task) (d : execution) : execution :=
  {| state := state d; started_at := started_at d;
     completed_at := completed_at d; last_executed_task := Some v;
     error := error d; inputs := inputs d |}.

Definition set_error (v : string) (d : execution) : execution :=
  {| state := state d; started_at := started_at d;
     completed_at := completed_at d;
     last_executed_task := last_executed_task d; error := Some v;
     inputs := inputs d |}.

(** ** HTTP responses *)

Module KickoffResponse.
Record t := {
  kickoff_id : string;
  status : string;
  message : string;
}.
End KickoffResponse.

Module StatusResponse.
Record t := {
  state : string;
  last_executed_task : option task;
  started_at : option string;
  completed_at : option string;
  error : option string;
}.
End StatusResponse.

(** A handler answers 200 with its response model, or raises
    [HTTPException(status_code, detail)], or the body fails validation
    against the request model (422, before the handler body runs). *)
Inductive response (A : Type) :=
| Ok200 (body : A)
| HTTPException (status_code : nat) (detail : string)
| ValidationError422.
Arguments Ok200 {A} body.
Arguments HTTPException {A} status_code detail.
Arguments ValidationError422 {A}.

(** ** Threads and handlers in flight *)

(** Addresses of dictionary objects in the store. *)
Abbreviation loc := nat (only parsing).

(** Where a worker thread stands in [run_crew_async]: the statement it
    executes next. *)
Inductive wpc :=
| AtSetRunning                       (* line 76 *)
| AtWorkflow                         (* lines 79-80 *)
| AtSetSuccess (result : pyobj)      (* line 83 *)
| AtSetCompleted (result : pyobj)    (* line 84 *)
| AtSetResult (result : pyobj)       (* lines 85-88 *)
| AtSetFailed (e : exn)              (* line 91 *)
| AtSetError (e : exn)               (* line 92 *)
| AtSetCompletedF (e : exn)          (* line 93 *)
| AtPrint (e : exn)                  (* line 94 *)
| Returned                           (* the function has returned *)
| Died (e : exn).                    (* an exception left the function *)

(** A thread started on line 139, with the arguments it was given. *)
Record thread := {
  t_kickoff_id : string;
  t_inputs : list (string * json);
  t_pc : wpc;
}.

(** Where a [get_status] handler stands, with the values it has read. *)
Inductive spc :=
| AtCheck                                                  (* line 161 *)
| AtBind                                                   (* line 164 *)
| AtReadState (execution : loc)                            (* line 167 *)
| AtReadTask (execution : loc) (st : string)               (* line 168 *)
| AtReadStarted (execution : loc) (st : string) (lt : option task)
                                                           (* line 169 *)
| AtReadCompleted (execution : loc) (st : string) (lt : option task)
    (sa : string)                                          (* line 170 *)
| AtReadError (execution : loc) (st : string) (lt : option task)
    (sa : string) (ca : option string)                     (* line 171 *)
| Responded (r : response StatusResponse.t).

(** A [get_status] call in flight or finished, with its path parameter. *)
Record handler := {
  h_kickoff_id : string;
  h_pc : spc;
}.

(** ** The process state *)

(** [executions] (line 49), the dictionary objects it refers to, the worker
    threads in the order they were started, the status requests in the order
    they arrived, and what was printed. *)
Record sys := {
  executions : gmap string loc;
  heap : list execution;
  threads : list thread;
  requests : list handler;
  stdout : list string;
}.

Definition init : sys :=
  {| executions := ∅; heap := []; threads := []; requests := [];
     stdout := [] |}.

(** The dictionary currently stored under a key. *)
Definition record_of (s : sys) (k : string) : option execution :=
  l ← executions s !! k; heap s !! l.

(** ** [run_crew_async] *)

(** [executions[kickoff_id][field] = v]: the subscript [executions[kickoff_id]]
    raises [KeyError] on a missing key ([None] here), otherwise the object
    found is updated in place. *)
Definition store (k : string) (f : execution → execution)
    (ex : gmap string loc) (h : list execution) : option (list execution) :=
  match ex !! k with
  | Some l => Some (alter f l h)
  | None => None
  end.

(** Lines 85-88, the dictionary literal. *)
Definition final_task (result : pyobj) : task :=
  {| output := match getattr_raw result with
               | Some raw => py_str raw
               | None => py_str result
               end;
     task_name := "final_output_assembly" |}.

(** A store inside the [try] block: an exception enters the handler. *)
Definition in_try (k : string) (r : option (list execution))
    (h : list execution) (next : wpc) : list execution * wpc * list string :=
  match r with
  | Some h' => (h', next, [])
  | None => (h, AtSetFailed (KeyError k), [])
  end.

(** A store inside the [except] block: an exception leaves the function. *)
Definition in_except (k : string) (r : option (list execution))
    (h : list execution) (next : wpc) : list execution * wpc * list string :=
  match r with
  | Some h' => (h', next, [])
  | None => (h, Died (KeyError k), [])
  end.

(** One statement of [run_crew_async(kickoff_id, inputs)].  [now] is what
    [datetime.now().isoformat()] yields and [oc] what the crew does, should
    this statement ask for them.  The result is the new store, the next
    statement and the lines printed. *)
Definition run_crew_async (now : string) (oc : outcome) (k : string)
    (ex : gmap string loc) (h : list execution) (pc : wpc)
    : list execution * wpc * list string :=
  match pc with
  | AtSetRunning =>
      in_try k (store k (set_state "RUNNING") ex h) h AtWorkflow
  | AtWorkflow =>
      match oc with
      | Returns result => (h, AtSetSuccess result, [])
      | Raises e => (h, AtSetFailed e, [])
      end
  | AtSetSuccess result =>
      in_try k (store k (set_state "SUCCESS") ex h) h (AtSetCompleted result)
  | AtSetCompleted result =>
      in_try k (store k (set_completed_at now) ex h) h (AtSetResult result)
  | AtSetResult result =>
      in_try k (store k (set_last_executed_task (final_task result)) ex h) h
        Returned
  | AtSetFailed e =>
      in_except k (store k (set_state "FAILED") ex h) h (AtSetError e)
  | AtSetError e =>
      in_except k (store k (set_error (exn_str e)) ex h) h (AtSetCompletedF e)
  | AtSetCompletedF e =>
      in_except k (store k (set_completed_at now) ex h) h (AtPrint e)
  | AtPrint e =>
      (h, Returned, ["Crew execution failed: " +:+ exn_str e])
  | Returned => (h, Returned, [])
  | Died e => (h, Died e, [])
  end.

(** ** [kickoff] *)

(** Validation of the request body against [KickoffRequest]: the body must
    be an object whose [inputs] field is an object (a [Dict[str, Any]]; keys
    of a JSON object are strings and the values are unconstrained). *)
Definition validate (body : json) : option (list (string * json)) :=
  match body with
  | JObject fields =>
      match dict_get "inputs" fields with
      | Some (JObject inputs) => Some inputs
      | _ => None
      end
  | _ => None
  end.

(** Lines 124-131: a new dictionary object is bound to the key. *)
Definition insert_execution (kickoff_id now : string)
    (request_inputs : list (string * json)) (s : sys) : sys :=
  {| executions := <[kickoff_id := length (heap s)]> (executions s);
     heap := heap s ++ [ {| state := "PENDING";
                            started_at := now;
                            completed_at := None;
                            last_executed_task := None;
                            error := None;
                            inputs := request_inputs |} ];
     threads := threads s;
     requests := requests s;
     stdout := stdout s |}.

(** Lines 134-139: the thread is created and started. *)
Definition start_thread (kickoff_id : string)
    (request_inputs : list (string * json)) (s : sys) : sys :=
  {| executions := executions s;
     heap := heap s;
     threads := threads s ++ [ {| t_kickoff_id := kickoff_id;
                                  t_inputs := request_inputs;
                                  t_pc := AtSetRunning |} ];
     requests := requests s;
     stdout := stdout s |}.

(** The body of the [kickoff] handler.  [request_inputs] is
    [request.inputs] of the validated request, [uuid4] the string
    [str(uuid.uuid4())] yields and [now] the time stamp. *)
Definition kickoff (request_inputs : list (string * json))
    (uuid4 now : string) (s : sys) : sys * KickoffResponse.t :=
  let kickoff_id := uuid4 in
  let s1 := insert_execution kickoff_id now request_inputs s in
  let s2 := start_thread kickoff_id request_inputs s1 in
  (s2, {| KickoffResponse.kickoff_id := kickoff_id;
          KickoffResponse.status := "PENDING";
          KickoffResponse.message := "Crew execution started" |}).

(** POST /kickoff: the body is validated against [KickoffRequest] before
    the handler runs; a body that fails is answered 422 and the handler
    does not run. *)
Definition post_kickoff (body : json) (uuid4 now : string) (s : sys)
    : sys * response KickoffResponse.t :=
  match validate body with
  | None => (s, ValidationError422)
  | Some request_inputs =>
      let r := kickoff request_inputs uuid4 now s in (r.1, Ok200 r.2)
  end.

(** ** [get_status] *)

(** One read of [get_status(kickoff_id)].  [execution] is an address: each
    field is read from the object as it is at that moment.  Objects are
    never freed, so the address is never dangling; on a dangling address
    the handler would not move. *)
Definition get_status (kickoff_id : string) (ex : gmap string loc)
    (h : list execution) (pc : spc) : spc :=
  match pc with
  | AtCheck =>
      match ex !! kickoff_id with
      | None => Responded (HTTPException 404 "Execution not found")
      | Some _ => AtBind
      end
  | AtBind =>
      match ex !! kickoff_id with
      | Some l => AtReadState l
      | None => (* KeyError, answered by the framework *)
          Responded (HTTPException 500 "Internal Server Error")
      end
  | AtReadState l =>
      match h !! l with
      | Some d => AtReadTask l (state d)
      | None => pc
      end
  | AtReadTask l st =>
      match h !! l with
      | Some d => AtReadStarted l st (last_executed_task d)
      | None => pc
      end
  | AtReadStarted l st lt =>
      match h !! l with
      | Some d => AtReadCompleted l st lt (started_at d)
      | None => pc
      end
  | AtReadCompleted l st lt sa =>
      match h !! l with
      | Some d => AtReadError l st lt sa (completed_at d)
      | None => pc
      end
  | AtReadError l st lt sa ca =>
      match h !! l with
      | Some d =>
          Responded (Ok200 {| StatusResponse.state := st;
                              StatusResponse.last_executed_task := lt;
                              StatusResponse.started_at := Some sa;
                              StatusResponse.completed_at := ca;
                              StatusResponse.error := error d |})
      | None => pc
      end
  | Responded r => Responded r
  end.

(** ** Interleavings *)

(** What can happen next: a submission is handled; a status request
    arrives; the [q]-th status handler makes its next read; the [t]-th
    worker thread executes its next statement. *)
Inductive event :=
| POST_kickoff (body : json) (uuid4 now : string)
| GET_status (kickoff_id : string)
| StatusStep (q : nat)
| WorkerStep (t : nat) (now : string) (oc : outcome).

(** An event that names a handler or thread that does not exist changes
    nothing. *)
Definition step (ev : event) (s : sys) : sys :=
  match ev with
  | POST_kickoff body uuid4 now => (post_kickoff body uuid4 now s).1
  | GET_status kickoff_id =>
      {| executions := executions s; heap := heap s; threads := threads s;
         requests := requests s ++ [ {| h_kickoff_id := kickoff_id;
                                        h_pc := AtCheck |} ];
         stdout := stdout s |}
  | StatusStep q =>
      match requests s !! q with
      | Some r =>
          let pc' := get_status (h_kickoff_id r) (executions s) (heap s)
                       (h_pc r) in
          {| executions := executions s; heap := heap s;
             threads := threads s;
             requests := <[q := {| h_kickoff_id := h_kickoff_id r;
                                   h_pc := pc' |}]> (requests s);
             stdout := stdout s |}
      | None => s
      end
  | WorkerStep t now oc =>
      match threads s !! t with
      | Some w =>
          let '(h', pc', out) :=
            run_crew_async now oc (t_kickoff_id w) (executions s) (heap s)
              (t_pc w) in
          {| executions := executions s; heap := h';
             threads := <[t := {| t_kickoff_id := t_kickoff_id w;
                                  t_inputs := t_inputs w;
                                  t_pc := pc' |}]> (threads s);
             requests := requests s;
             stdout := stdout s ++ out |}
      | None => s
      end
  end.

Definition run (evs : list event) (s : sys) : sys :=
  fold_left (λ s ev, step ev s) evs s.

(** [uuid.uuid4()] is taken to be collision free: an accepted submission
    draws an identifier that is not a key of [executions]. *)
Definition fresh_event (s : sys) (ev : event) : bool :=
  match ev with
  | POST_kickoff body uuid4 _ =>
      match validate body with
      | Some _ => bool_decide (executions s !! uuid4 = None)
      | None => true
      end
  | _ => true
  end.

Fixpoint fresh_run (s : sys) (evs : list event) : bool :=
  match evs with
  | [] => true
  | ev :: evs' => fresh_event s ev && fresh_run (step ev s) evs'
  end.

(** The identifiers handed out by the accepted submissions of a schedule. *)
Fixpoint issued (evs : list event) : list string :=
  match evs with
  | [] => []
  | POST_kickoff body uuid4 _ :: evs' =>
      match validate body with
      | Some _ => uuid4 :: issued evs'
      | None => issued evs'
      end
  | _ :: evs' => issued evs'
  end.

(** The response of the [q]-th status request, once it has one. *)
Definition status_response (s : sys) (q : nat)
    : option (response StatusResponse.t) :=
  match requests s !! q with
  | Some {| h_pc := Responded r |} => Some r
  | _ => None
  end.

(** * Vocabulary of the properties *)

(** ** The effect of a statement on the thread's own dictionary *)

(** What one statement of the worker does to the dictionary bound to its
    key, when the key is bound. *)
Definition effect (now : string) (oc : outcome) (pc : wpc) (d : execution)
    : execution * wpc :=
  match pc with
  | AtSetRunning => (set_state "RUNNING" d, AtWorkflow)
  | AtWorkflow =>
      match oc with
      | Returns result => (d, AtSetSuccess result)
      | Raises e => (d, AtSetFailed e)
      end
  | AtSetSuccess result => (set_state "SUCCESS" d, AtSetCompleted result)
  | AtSetCompleted result => (set_completed_at now d, AtSetResult result)
  | AtSetResult result =>
      (set_last_executed_task (final_task result) d, Returned)
  | AtSetFailed e => (set_state "FAILED" d, AtSetError e)
  | AtSetError e => (set_error (exn_str e) d, AtSetCompletedF e)
  | AtSetCompletedF e => (set_completed_at now d, AtPrint e)
  | AtPrint e => (d, Returned)
  | Returned => (d, Returned)
  | Died e => (d, Died e)
  end.

(** What the statement prints. *)
Definition printed (pc : wpc) : list string :=
  match pc with
  | AtPrint e => ["Crew execution failed: " +:+ exn_str e]
  | _ => []
  end.

(** ** What a dictionary looks like at each statement of its worker *)

(** The optional fields are all [None], as [kickoff] left them. *)
Definition blank (d : execution) : Prop :=
  completed_at d = None ∧ last_executed_task d = None ∧ error d = None.

(** The dictionary of a job when its worker is about to execute [pc]. *)
Definition phase (pc : wpc) (d : execution) : Prop :=
  match pc with
  | AtSetRunning => state d = "PENDING" ∧ blank d
  | AtWorkflow | AtSetSuccess _ | AtSetFailed _ =>
      state d = "RUNNING" ∧ blank d
  | AtSetCompleted _ => state d = "SUCCESS" ∧ blank d
  | AtSetResult _ =>
      state d = "SUCCESS" ∧ is_Some (completed_at d) ∧
      last_executed_task d = None ∧ error d = None
  | AtSetError _ => state d = "FAILED" ∧ blank d
  | AtSetCompletedF e =>
      state d = "FAILED" ∧ completed_at d = None ∧
      last_executed_task d = None ∧ error d = Some (exn_str e)
  | AtPrint e =>
      state d = "FAILED" ∧ is_Some (completed_at d) ∧
      last_executed_task d = None ∧ error d = Some (exn_str e)
  | Returned =>
      (state d = "SUCCESS" ∧ is_Some (completed_at d) ∧
       is_Some (last_executed_task d) ∧ error d = None) ∨
      (state d = "FAILED" ∧ is_Some (completed_at d) ∧
       last_executed_task d = None ∧ is_Some (error d))
  | Died _ => False
  end.

(** One move along PENDING, RUNNING, SUCCESS-or-FAILED, or none. *)
Definition state_next (a b : string) : Prop :=
  a = b ∨ (a = "PENDING" ∧ b = "RUNNING") ∨
  (a = "RUNNING" ∧ (b = "SUCCESS" ∨ b = "FAILED")).

(** [a] is a state the dictionary may have shown before showing [b]. *)
Definition state_le (a b : string) : Prop :=
  a = b ∨ (a = "PENDING" ∧ b ≠ "PENDING") ∨
  (a = "RUNNING" ∧ (b = "SUCCESS" ∨ b = "FAILED")).

(** [x] is what an optional field held now or earlier. *)
Definition stale {A} (x y : option A) : Prop := x = None ∨ x = y.

(** [d'] is [d] after at most one statement of its worker. *)
Record evolves (d d' : execution) : Prop := {
  ev_state : state_next (state d) (state d');
  ev_started_at : started_at d' = started_at d;
  ev_inputs : inputs d' = inputs d;
  ev_completed_at : stale (completed_at d) (completed_at d');
  ev_last_executed_task : stale (last_executed_task d) (last_executed_task d');
  ev_error : stale (error d) (error d');
  ev_completed_state :
    completed_at d = None → is_Some (completed_at d') →
    state d' = state d ∧ (state d = "SUCCESS" ∨ state d = "FAILED");
}.

(** Facts about a dictionary that hold at every statement. *)
Record sound (d : execution) : Prop := {
  sound_state :
    state d = "PENDING" ∨ state d = "RUNNING" ∨ state d = "SUCCESS" ∨
    state d = "FAILED";
  sound_task :
    is_Some (last_executed_task d) →
    state d = "SUCCESS" ∧ error d = None ∧ is_Some (completed_at d);
  sound_error :
    is_Some (error d) → state d = "FAILED" ∧ last_executed_task d = None;
  sound_completed :
    is_Some (completed_at d) → state d = "SUCCESS" ∨ state d = "FAILED";
}.

(** [d] is the dictionary as it was at some earlier moment of [d']. *)
Record older (d d' : execution) : Prop := {
  old_state : state_le (state d) (state d');
  old_started_at : started_at d' = started_at d;
  old_inputs : inputs d' = inputs d;
  old_completed_at : stale (completed_at d) (completed_at d');
  old_last_executed_task :
    stale (last_executed_task d) (last_executed_task d');
  old_error : stale (error d) (error d');
}.

(** ** What a status handler has read so far *)

(** The handler has found, or will look for, the key in [executions]. *)
Definition needs_key (pc : spc) : bool :=
  match pc with
  | AtCheck | Responded (HTTPException _ _) | Responded ValidationError422 =>
      false
  | _ => true
  end.

(** The object [execution] is bound to, and the values read from it. *)
Definition alias_of (pc : spc) : option loc :=
  match pc with
  | AtReadState l | AtReadTask l _ | AtReadStarted l _ _
  | AtReadCompleted l _ _ _ | AtReadError l _ _ _ _ => Some l
  | _ => None
  end.

Definition read_state (pc : spc) : option string :=
  match pc with
  | AtReadTask _ st | AtReadStarted _ st _ | AtReadCompleted _ st _ _
  | AtReadError _ st _ _ _ => Some st
  | Responded (Ok200 r) => Some (StatusResponse.state r)
  | _ => None
  end.

Definition read_task (pc : spc) : option task :=
  match pc with
  | AtReadStarted _ _ lt | AtReadCompleted _ _ lt _
  | AtReadError _ _ lt _ _ => lt
  | Responded (Ok200 r) => StatusResponse.last_executed_task r
  | _ => None
  end.

Definition read_started (pc : spc) : option string :=
  match pc with
  | AtReadCompleted _ _ _ sa | AtReadError _ _ _ sa _ => Some sa
  | Responded (Ok200 r) => StatusResponse.started_at r
  | _ => None
  end.

Definition read_completed (pc : spc) : option string :=
  match pc with
  | AtReadError _ _ _ _ ca => ca
  | Responded (Ok200 r) => StatusResponse.completed_at r
  | _ => None
  end.

Definition read_error (pc : spc) : option string :=
  match pc with
  | Responded (Ok200 r) => StatusResponse.error r
  | _ => None
  end.

(** The values read are values the dictionary [d] holds or held. *)
Record fits (pc : spc) (d : execution) : Prop := {
  fits_state : ∀ x, read_state pc = Some x → state_le x (state d);
  fits_task : stale (read_task pc) (last_executed_task d);
  fits_started : ∀ x, read_started pc = Some x → x = started_at d;
  fits_completed : stale (read_completed pc) (completed_at d);
  fits_error : stale (read_error pc) (error d);
}.

(** The handler's alias is the object now stored under its key, and what
    it has read fits that object. *)
Definition seen (ex : gmap string loc) (h : list execution) (k : string)
    (pc : spc) : Prop :=
  needs_key pc = true →
  ∃ l d, ex !! k = Some l ∧ h !! l = Some d ∧
         (∀ l', alias_of pc = Some l' → l' = l) ∧ fits pc d.

(** The only answers of a status handler: 200, or the 404 of line 162. *)
Definition answered (pc : spc) : Prop :=
  match pc with
  | Responded (HTTPException status_code detail) =>
      status_code = 404 ∧ detail = "Execution not found"
  | Responded ValidationError422 => False
  | _ => True
  end.

(** The response built from the dictionary as it is at one moment. *)
Definition snapshot (d : execution) : StatusResponse.t :=
  {| StatusResponse.state := state d;
     StatusResponse.last_executed_task := last_executed_task d;
     StatusResponse.started_at := Some (started_at d);
     StatusResponse.completed_at := completed_at d;
     StatusResponse.error := error d |}.

(** Line 162. *)
Definition not_found : response StatusResponse.t :=
  HTTPException 404 "Execution not found".

(** ** The invariant of the process *)

(** Every key refers to an allocated object of its own; every thread has its
    own key, and its dictionary is as its next statement expects; every
    dictionary has its thread; every status handler has read values its
    dictionary holds or held, and has answered 200 or 404 if at all. *)
Record Inv (s : sys) : Prop := {
  inv_alloc : ∀ k l, executions s !! k = Some l → is_Some (heap s !! l);
  inv_inj : ∀ k k' l,
    executions s !! k = Some l → executions s !! k' = Some l → k = k';
  inv_nodup : NoDup (t_kickoff_id <$> threads s);
  inv_phase : ∀ t w, threads s !! t = Some w →
    ∃ l d, executions s !! t_kickoff_id w = Some l ∧ heap s !! l = Some d ∧
           phase (t_pc w) d ∧ inputs d = t_inputs w;
  inv_owner : ∀ k l, executions s !! k = Some l →
    ∃ t w, threads s !! t = Some w ∧ t_kickoff_id w = k;
  inv_seen : ∀ q r, requests s !! q = Some r →
    seen (executions s) (heap s) (h_kickoff_id r) (h_pc r);
  inv_answered : ∀ q r, requests s !! q = Some r → answered (h_pc r);
}.

(** ** Schedules, seen from one dictionary or one thread *)

(** The key whose dictionary an event may write. *)
Definition writer (s : sys) (ev : event) : option string :=
  match ev with
  | POST_kickoff body uuid4 _ =>
      match validate body with Some _ => Some uuid4 | None => None end
  | WorkerStep t _ _ => t_kickoff_id <$> threads s !! t
  | _ => None
  end.

(** The time stamps and outcomes handed to thread [t] by a schedule, in
    order. *)
Fixpoint ticks (t : nat) (evs : list event) : list (string * outcome) :=
  match evs with
  | [] => []
  | WorkerStep t' now oc :: evs' =>
      if decide (t' = t) then (now, oc) :: ticks t evs' else ticks t evs'
  | _ :: evs' => ticks t evs'
  end.

(** The thread run on its own dictionary, nothing else moving. *)
Definition solo (ts : list (string * outcome)) (st : execution * wpc)
    : execution * wpc :=
  fold_left (λ st tk, effect tk.1 tk.2 st.2 st.1) ts st.

(** The state shown by the dictionary of [k] in [s] and after each event of
    a schedule, from the moment the dictionary exists. *)
Fixpoint states_seen (k : string) (s : sys) (evs : list event)
    : list string :=
  option_list (state <$> record_of s k) ++
  match evs with
  | [] => []
  | ev :: evs' => states_seen k (step ev s) evs'
  end.

(** A sequence with its immediate repetitions removed. *)
Fixpoint compress (l : list string) : list string :=
  match l with
  | [] => []
  | a :: l' =>
      match l' with
      | b :: _ => if decide (a = b) then compress l' else a :: compress l'
      | [] => [a]
      end
  end.

(** Each element is followed by itself or by its successor state. *)
Fixpoint path (l : list string) : Prop :=
  match l with
  | a :: l' =>
      match l' with
      | b :: _ => state_next a b ∧ path l'
      | [] => True
      end
  | [] => True
  end.

(** The worker has not yet stored SUCCESS or FAILED. *)
Definition before_terminal (pc : wpc) : bool :=
  match pc with
  | AtSetRunning | AtWorkflow | AtSetSuccess _ | AtSetFailed _ => true
  | _ => false
  end.

(** No dictionary under [id], and every handler asked about [id] is at its
    membership test or has answered 404. *)
Definition unknown (id : string) (s : sys) : Prop :=
  executions s !! id = None ∧
  ∀ q r, requests s !! q = Some r → h_kickoff_id r = id →
         h_pc r = AtCheck ∨ h_pc r = Responded not_found.

(** The key is bound, and every handler asked about it from request number
    [n0] on is at its membership test or past it. *)
Definition pollable (u : string) (n0 : nat) (s : sys) : Prop :=
  is_Some (executions s !! u) ∧
  ∀ q r, n0 ≤ q → requests s !! q = Some r → h_kickoff_id r = u →
         h_pc r = AtCheck ∨ needs_key (h_pc r) = true.

(** ** Submission payloads *)

(** The [inputs] field of a submission payload, when it has one. *)
Definition inputs_field (body : json) : option json :=
  match body with
  | JObject fields => dict_get "inputs" fields
  | _ => None
  end.

(** The value is a JSON object. *)
Definition is_object (v : json) : bool :=
  match v with JObject _ => true | _ => false end.

(** ** Schedules used as examples *)

(** A step that does not call the crew ignores the outcome it is handed,
    and a step that does not read the clock ignores the time stamp. *)

Definition sql_body : json :=
  JObject [("inputs", JObject [("topic", JString "SQL")])].

Definition crew_output : pyobj := PyObj "repr" (Some (PyObj "final" None)).

Definition demo_success : list event :=
  [POST_kickoff sql_body "id-1" "t0";
   WorkerStep 0 "t1" (Returns crew_output);
   WorkerStep 0 "t1" (Returns crew_output);
   WorkerStep 0 "t1" (Returns crew_output);
   WorkerStep 0 "t2" (Returns crew_output);
   WorkerStep 0 "t3" (Returns crew_output)].

Definition demo_failure : list event :=
  [POST_kickoff sql_body "id-1" "t0";
   POST_kickoff (JObject [("inputs", JObject [])]) "id-2" "t0";
   WorkerStep 1 "t1" (Raises (Raised "rate limit"));
   WorkerStep 1 "t1" (Raises (Raised "rate limit"));
   WorkerStep 0 "t1" (Returns (PyObj "repr" None))].

Definition before_failure : list event :=
  [POST_kickoff sql_body "id-1" "t0";
   POST_kickoff (JObject [("inputs", JObject [])]) "id-2" "t0";
   WorkerStep 1 "t1" (Raises (Raised "rate limit"))].

Definition after_failure : list event :=
  [WorkerStep 0 "t1" (Returns (PyObj "repr" None));
   WorkerStep 1 "t2" (Returns (PyObj "" None));
   GET_status "id-2";
   WorkerStep 1 "t3" (Returns (PyObj "" None));
   WorkerStep 1 "t4" (Returns (PyObj "" None));
   WorkerStep 1 "t5" (Returns (PyObj "" None))].

Definition failure_final : sys :=
  run (WorkerStep 1 "t1" (Raises (Raised "rate limit")) :: after_failure)
    (run before_failure init).

Definition before_success : list event :=
  [POST_kickoff sql_body "id-1" "t0";
   WorkerStep 0 "t1" (Returns (PyObj "repr" None))].

Definition after_success : list event :=
  [GET_status "id-1";
   WorkerStep 0 "t2" (Returns (PyObj "" None));
   StatusStep 0;
   WorkerStep 0 "t3" (Returns (PyObj "" None));
   WorkerStep 0 "t4" (Returns (PyObj "" None))].

Definition success_final : sys :=
  run (WorkerStep 0 "t1" (Returns crew_output) :: after_success)
    (run before_success init).

Definition success_schedule : list event :=
  before_success ++ WorkerStep 0 "t1" (Returns crew_output) :: after_success.

(** A status request that arrives after the worker has stored SUCCESS on
    line 83 and before it stores the result on lines 85-88. *)
Definition torn_success : list event :=
  [POST_kickoff sql_body "id-1" "t0";
   WorkerStep 0 "t1" (Returns crew_output);
   WorkerStep 0 "t1" (Returns crew_output);
   WorkerStep 0 "t1" (Returns crew_output);
   GET_status "id-1"] ++ repeat (StatusStep 0) 7.

Definition torn_response : StatusResponse.t :=
  {| StatusResponse.state := "SUCCESS";
     StatusResponse.last_executed_task := None;
     StatusResponse.started_at := Some "t0";
     StatusResponse.completed_at := None;
     StatusResponse.error := None |}.

(** A status request that arrives after the worker has stored FAILED on
    line 91 and before it stores the completion time on line 93. *)
Definition torn_failure : list event :=
  [POST_kickoff sql_body "id-1" "t0";
   WorkerStep 0 "t1" (Raises (Raised "rate limit"));
   WorkerStep 0 "t1" (Raises (Raised "rate limit"));
   WorkerStep 0 "t1" (Raises (Raised "rate limit"));
   GET_status "id-1"] ++ repeat (StatusStep 0) 7.

Definition torn_failure_record : execution :=
  {| state := "FAILED"; started_at := "t0"; completed_at := None;
     last_executed_task := None; error := None;
     inputs := [("topic", JString "SQL")] |}.

(** * Lemmas *)

(** ** The program on examples *)

Example run_success :
  record_of (run demo_success init) "id-1"
  = Some {| state := "SUCCESS"; started_at := "t0";
            completed_at := Some "t2";
            last_executed_task :=
              Some {| output := "final";
                      task_name := "final_output_assembly" |};
            error := None;
            inputs := [("topic", JString "SQL")] |}.
Proof. reflexivity. Qed.

Example run_failure :
  record_of failure_final "id-2"
  = Some {| state := "FAILED"; started_at := "t0";
            completed_at := Some "t4";
            last_executed_task := None;
            error := Some "rate limit";
            inputs := [] |} ∧
  stdout failure_final = ["Crew execution failed: rate limit"].
Proof. split; reflexivity. Qed.

Example rejected_bodies :
  validate (JObject []) = None ∧
  validate (JObject [("inputs", JArray [])]) = None ∧
  validate (JArray [JObject [("inputs", JObject [])]]) = None ∧
  validate (JObject [("inputs", JObject []); ("extra", JNull)]) = Some [].
Proof. repeat split. Qed.

(** ** The effect of a statement on the thread's own dictionary *)

Lemma alter_as_insert (f : execution → execution) (l : nat)
    (h : list execution) (d : execution) :
  h !! l = Some d → alter f l h = <[l := f d]> h.
Proof.
  intros Hl. apply list_eq. intros i.
  destruct (decide (i = l)) as [->|Hne].
  - rewrite list_lookup_alter_eq, Hl. simpl.
    by rewrite list_lookup_insert_eq by (by eapply lookup_lt_Some).
  - by rewrite list_lookup_alter_ne, list_lookup_insert_ne.
Qed.

Lemma run_crew_async_bound now oc k (ex : gmap string loc)
    (h : list execution) pc l d :
  ex !! k = Some l → h !! l = Some d →
  run_crew_async now oc k ex h pc
  = (<[l := (effect now oc pc d).1]> h, (effect now oc pc d).2, printed pc).
Proof.
  intros Hk Hl.
  destruct pc; try destruct oc;
    unfold run_crew_async, effect, in_try, in_except, store, printed;
    rewrite ?Hk; cbn [fst snd];
    rewrite ?(alter_as_insert _ _ _ _ Hl), ?(list_insert_id _ _ _ Hl); done.
Qed.

Lemma effect_phase now oc pc d :
  phase pc d → phase (effect now oc pc d).2 (effect now oc pc d).1.
Proof.
  unfold phase, blank.
  destruct pc; try destruct oc; simpl; intuition eauto.
Qed.

Lemma effect_evolves now oc pc d :
  phase pc d → evolves d (effect now oc pc d).1.
Proof.
  unfold phase, blank.
  destruct pc; try destruct oc; simpl; intros Hp; split; simpl;
    unfold state_next, stale; try (intros Hn [c Hc]); intuition eauto;
    congruence.
Qed.

Lemma phase_sound pc d : phase pc d → sound d.
Proof.
  unfold phase, blank.
  destruct pc; intros Hp; split; unfold is_Some in *; naive_solver.
Qed.

(** ** Earlier and later values *)

Lemma state_le_next a b c : state_le a b → state_next b c → state_le a c.
Proof.
  unfold state_le, state_next.
  intros [->|[[-> Hb]|[-> Hb]]] [->|[[-> ->]|[-> Hc]]]; eauto;
    try (destruct Hb; discriminate); try done.
  right. left. split; [done|]. by destruct Hc as [->| ->].
Qed.

Lemma stale_trans {A} (x y z : option A) : stale x y → stale y z → stale x z.
Proof. unfold stale. intros [->| ->] [->| ->]; eauto. Qed.

(** ** What a status handler has read so far *)

Lemma fits_evolves pc d d' : fits pc d → evolves d d' → fits pc d'.
Proof.
  intros [] []. split.
  - intros x Hx. eapply state_le_next; eauto.
  - eapply stale_trans; eauto.
  - intros x Hx. rewrite ev_started_at0. eauto.
  - eapply stale_trans; eauto.
  - eapply stale_trans; eauto.
Qed.

Local Ltac read_tac :=
  repeat split; simpl in *;
  first [ done | by left | by right | by intros ? [= <-]
        | by intros ? [= <-]; left | idtac ].

Lemma get_status_seen (ex : gmap string loc) (h : list execution) k pc :
  (∀ k l, ex !! k = Some l → is_Some (h !! l)) →
  seen ex h k pc → seen ex h k (get_status k ex h pc).
Proof.
  intros Halloc Hseen.
  destruct pc as [| |l|l st|l st lt|l st lt sa|l st lt sa ca|r]; simpl;
    [| | | | | | |done].
  - destruct (ex !! k) as [l|] eqn:Hk; [|by intros ?].
    intros _. destruct (Halloc _ _ Hk) as [d Hd].
    exists l, d. read_tac.
  - destruct (Hseen eq_refl) as (l & d & Hk & Hd & _ & _). rewrite Hk.
    intros _. exists l, d. read_tac.
  - destruct (Hseen eq_refl) as (l' & d & Hk & Hd & Hal & Hf).
    rewrite (Hal l eq_refl), Hd. intros _. exists l', d. read_tac.
  - destruct (Hseen eq_refl) as (l' & d & Hk & Hd & Hal & [Hs Ht Hst Hc He]).
    rewrite (Hal l eq_refl), Hd. intros _. exists l', d. read_tac.
  - destruct (Hseen eq_refl) as (l' & d & Hk & Hd & Hal & [Hs Ht Hst Hc He]).
    rewrite (Hal l eq_refl), Hd. intros _. exists l', d. read_tac.
  - destruct (Hseen eq_refl) as (l' & d & Hk & Hd & Hal & [Hs Ht Hst Hc He]).
    rewrite (Hal l eq_refl), Hd. intros _. exists l', d. read_tac.
  - destruct (Hseen eq_refl) as (l' & d & Hk & Hd & Hal & [Hs Ht Hst Hc He]).
    rewrite (Hal l eq_refl), Hd. intros _. exists l', d. read_tac.
Qed.

Lemma get_status_answered (ex : gmap string loc) (h : list execution) k pc :
  seen ex h k pc → answered pc → answered (get_status k ex h pc).
Proof.
  intros Hseen Hans.
  destruct pc as [| |l|l st|l st lt|l st lt sa|l st lt sa ca|r]; simpl;
    try done; try by destruct (h !! l).
  - by destruct (ex !! k).
  - destruct (Hseen eq_refl) as (l & d & -> & _). done.
Qed.

(** ** The invariant is kept *)

Lemma Inv_init : Inv init.
Proof.
  split; simpl; try done.
  - constructor.
Qed.

Lemma Inv_GET_status s k : Inv s → Inv (step (GET_status k) s).
Proof.
  intros []. split; simpl; try done.
  - intros q r [Hq|[_ Hq]]%lookup_app_Some; [eauto|].
    apply list_lookup_singleton_Some in Hq as [_ <-]. by intros ?.
  - intros q r [Hq|[_ Hq]]%lookup_app_Some; [eauto|].
    by apply list_lookup_singleton_Some in Hq as [_ <-].
Qed.

Lemma Inv_StatusStep s q : Inv s → Inv (step (StatusStep q) s).
Proof.
  intros Hinv. unfold step.
  destruct (requests s !! q) as [r|] eqn:Hq; [|done].
  destruct Hinv. split; simpl; try done.
  - intros q' r' [(-> & <- & _)|[_ Hq']]%list_lookup_insert_Some; [|eauto].
    simpl. apply get_status_seen; eauto.
  - intros q' r' [(-> & <- & _)|[_ Hq']]%list_lookup_insert_Some; [|eauto].
    simpl. apply get_status_answered; eauto.
Qed.

Lemma Inv_kickoff s body u now :
  Inv s → fresh_event s (POST_kickoff body u now) = true →
  Inv (step (POST_kickoff body u now) s).
Proof.
  unfold step, post_kickoff, kickoff, fresh_event.
  destruct (validate body) as [request_inputs|]; [|done].
  intros [Halloc Hinj Hnodup Hphase Howner Hseen Hans]
    Hfresh%bool_decide_eq_true.
  split; simpl; [| | | | | |done].
  - intros k l [[<- <-]|[Hne Hk]]%lookup_insert_Some.
    + rewrite lookup_app_r, Nat.sub_diag by lia. by eexists.
    + destruct (Halloc _ _ Hk) as [d Hd]. exists d.
      by apply lookup_app_l_Some.
  - intros k k' l [[<- <-]|[Hne Hk]]%lookup_insert_Some
      [[<- Hl]|[Hne' Hk']]%lookup_insert_Some; try done.
    + apply Halloc, lookup_lt_is_Some in Hk'. lia.
    + subst l. apply Halloc, lookup_lt_is_Some in Hk. lia.
    + eauto.
  - rewrite fmap_app. apply NoDup_app. split_and!; [done| |].
    + intros k Hk ->%list_elem_of_singleton.
      apply list_elem_of_fmap in Hk as (w & Hw & Hin).
      apply list_elem_of_lookup in Hin as [t Ht].
      destruct (Hphase _ _ Ht) as (l & d & Hl & _). simpl in Hw.
      congruence.
    + apply NoDup_singleton.
  - intros t w [Ht|[_ Ht]]%lookup_app_Some.
    + destruct (Hphase _ _ Ht) as (l & d & Hl & Hd & Hp & Hi).
      exists l, d. split_and!; try done.
      * rewrite lookup_insert_ne; [done|]. congruence.
      * by apply lookup_app_l_Some.
    + apply list_lookup_singleton_Some in Ht as [_ <-]. simpl.
      eexists _, _. split; [apply lookup_insert_eq|].
      split; [rewrite lookup_app_r, Nat.sub_diag by lia; reflexivity|].
      unfold blank. done.
  - intros k l [[<- <-]|[Hne Hk]]%lookup_insert_Some.
    + eexists (length (threads s)), _.
      split; [rewrite lookup_app_r, Nat.sub_diag by lia; reflexivity|done].
    + destruct (Howner _ _ Hk) as (t & w & Ht & Hw).
      exists t, w. split; [|done]. by apply lookup_app_l_Some.
  - intros q r Hq Hn. destruct (Hseen _ _ Hq Hn) as (l & d & Hl & Hd & Hrest).
    exists l, d. split_and!; try done.
    + rewrite lookup_insert_ne; [done|]. congruence.
    + by apply lookup_app_l_Some.
    + apply Hrest.
    + apply Hrest.
Qed.

Lemma Inv_WorkerStep s t now oc : Inv s → Inv (step (WorkerStep t now oc) s).
Proof.
  intros Hinv. unfold step.
  destruct (threads s !! t) as [w|] eqn:Ht; [|done].
  destruct Hinv as [Halloc Hinj Hnodup Hphase Howner Hseen Hans].
  destruct (Hphase _ _ Ht) as (l & d & Hl & Hd & Hp & Hi).
  rewrite (run_crew_async_bound _ _ _ _ _ _ _ _ Hl Hd).
  pose proof (effect_phase now oc _ _ Hp) as Hp'.
  pose proof (effect_evolves now oc _ _ Hp) as Hev.
  destruct (effect now oc (t_pc w) d) as [d' pc']. simpl in Hp', Hev.
  assert (l < length (heap s)) as Hlt by by eapply lookup_lt_Some.
  split; simpl; [| | | | | |done].
  - intros k l' Hk. apply list_lookup_insert_is_Some. eauto.
  - done.
  - rewrite list_fmap_insert. simpl. rewrite list_insert_id; [done|].
    by rewrite list_lookup_fmap, Ht.
  - intros t' w' [(<- & <- & _)|[Hne Ht']]%list_lookup_insert_Some; simpl.
    + exists l, d'. split_and!; try done.
      * by apply list_lookup_insert_eq.
      * destruct Hev. congruence.
    + destruct (Hphase _ _ Ht') as (l' & d0 & Hl' & Hd' & Hp0 & Hi0).
      exists l', d0. split_and!; try done.
      rewrite list_lookup_insert_ne; [done|]. intros <-.
      assert (t_kickoff_id w = t_kickoff_id w') as Heq by eauto.
      apply Hne. eapply NoDup_lookup; [exact Hnodup| |].
      * by rewrite list_lookup_fmap, Ht.
      * by rewrite list_lookup_fmap, Ht', Heq.
  - intros k l' Hk. destruct (Howner _ _ Hk) as (t' & w' & Ht' & Hw').
    destruct (decide (t = t')) as [<-|Hne].
    + eexists t, _. split; [by apply list_lookup_insert_eq; eapply lookup_lt_Some|].
      simpl. congruence.
    + exists t', w'. split; [|done]. by rewrite list_lookup_insert_ne.
  - intros q r Hq Hn.
    destruct (Hseen _ _ Hq Hn) as (l' & d0 & Hl' & Hd' & Hal & Hf).
    destruct (decide (l' = l)) as [->|Hne].
    + exists l, d'. split_and!; try done.
      * by apply list_lookup_insert_eq.
      * eapply fits_evolves; [|exact Hev]. congruence.
    + exists l', d0. split_and!; try done.
      by rewrite list_lookup_insert_ne.
Qed.

Lemma Inv_step s ev : Inv s → fresh_event s ev = true → Inv (step ev s).
Proof.
  destruct ev; eauto using Inv_kickoff, Inv_GET_status, Inv_StatusStep,
    Inv_WorkerStep.
Qed.

Lemma Inv_run evs s : Inv s → fresh_run s evs = true → Inv (run evs s).
Proof.
  revert s. induction evs as [|ev evs IH]; intros s Hinv; simpl; [done|].
  intros [Hf Hr]%andb_true_iff. apply IH; [|done]. by apply Inv_step.
Qed.

Lemma Inv_reachable evs : fresh_run init evs = true → Inv (run evs init).
Proof. apply Inv_run, Inv_init. Qed.

(** ** One event, seen from one dictionary or one thread *)

Lemma evolves_refl d : evolves d d.
Proof.
  split; try done; try first [by left | by right].
  intros Hn [c Hc]. congruence.
Qed.

Lemma record_of_Some s k d :
  record_of s k = Some d ↔
  ∃ l, executions s !! k = Some l ∧ heap s !! l = Some d.
Proof.
  unfold record_of. destruct (executions s !! k) as [l|]; simpl.
  - split; [eauto|]. by intros (? & [= <-] & ?).
  - split; [done|]. by intros (? & ? & ?).
Qed.

Lemma step_record s ev k d :
  Inv s → fresh_event s ev = true → record_of s k = Some d →
  ∃ d', record_of (step ev s) k = Some d' ∧ evolves d d' ∧
        (writer s ev ≠ Some k → d' = d).
Proof.
  intros Hinv Hfresh (l & Hl & Hd)%record_of_Some.
  destruct ev as [body u now|k'|q|t now oc]; simpl in *.
  - unfold post_kickoff, kickoff. destruct (validate body) as [ri|]; simpl.
    + apply bool_decide_eq_true in Hfresh.
      exists d. split_and!; [|apply evolves_refl|done].
      apply record_of_Some. exists l. simpl.
      rewrite lookup_insert_ne by congruence.
      split; [done|]. by apply lookup_app_l_Some.
    + exists d. split_and!; [|apply evolves_refl|done].
      apply record_of_Some; eauto.
  - exists d. split_and!; [|apply evolves_refl|done].
    apply record_of_Some; eauto.
  - exists d. split_and!; [|apply evolves_refl|done].
    apply record_of_Some. destruct (requests s !! q); eauto.
  - destruct (threads s !! t) as [w|] eqn:Ht; simpl.
    2:{ exists d. split_and!; [|apply evolves_refl|done].
        apply record_of_Some; eauto. }
    destruct (inv_phase _ Hinv _ _ Ht) as (l0 & d0 & Hl0 & Hd0 & Hp & _).
    rewrite (run_crew_async_bound _ _ _ _ _ _ _ _ Hl0 Hd0).
    destruct (decide (l0 = l)) as [->|Hne].
    + assert (d0 = d) as -> by congruence.
      exists (effect now oc (t_pc w) d).1. split_and!.
      * apply record_of_Some. exists l. simpl. split; [done|].
        apply list_lookup_insert_eq. by eapply lookup_lt_Some.
      * by apply effect_evolves.
      * intros Hw. destruct Hw. f_equal. eapply inv_inj; eauto.
    + exists d. split_and!; [|apply evolves_refl|done].
      apply record_of_Some. exists l. simpl. split; [done|].
      by rewrite list_lookup_insert_ne.
Qed.

Lemma step_record_None s ev k :
  record_of s k = None → Inv s →
  record_of (step ev s) k = None ∨
  ∃ d, record_of (step ev s) k = Some d ∧ state d = "PENDING" ∧ blank d ∧
       writer s ev = Some k.
Proof.
  intros Hnone Hinv.
  assert (executions s !! k = None) as Hk.
  { destruct (executions s !! k) as [l|] eqn:Hk; [|done].
    destruct (inv_alloc _ Hinv _ _ Hk) as [d Hd].
    assert (record_of s k = Some d) by (apply record_of_Some; eauto).
    congruence. }
  destruct ev as [body u now|k'|q|t now oc]; simpl.
  - unfold post_kickoff, kickoff. destruct (validate body) as [ri|]; simpl; [|by left].
    destruct (decide (u = k)) as [->|Hne].
    + right. eexists. split.
      { apply record_of_Some. eexists. simpl.
        split; [apply lookup_insert_eq|].
        rewrite lookup_app_r, Nat.sub_diag by lia. reflexivity. }
      unfold blank. done.
    + left. unfold record_of. simpl. by rewrite lookup_insert_ne, Hk.
  - left. unfold record_of. simpl. by rewrite Hk.
  - left. unfold record_of. destruct (requests s !! q); simpl; by rewrite Hk.
  - left. unfold record_of.
    destruct (threads s !! t) as [w|]; simpl; [|by rewrite Hk].
    destruct (run_crew_async _ _ _ _ _ _) as [[h' pc'] out]. simpl.
    by rewrite Hk.
Qed.

Lemma step_thread_other s ev t w :
  (∀ now oc, ev ≠ WorkerStep t now oc) →
  threads s !! t = Some w → threads (step ev s) !! t = Some w.
Proof.
  intros Hev Ht. destruct ev as [body u now|k'|q|t' now oc]; simpl.
  - unfold post_kickoff, kickoff. destruct (validate body); simpl; [|done].
    by apply lookup_app_l_Some.
  - done.
  - by destruct (requests s !! q).
  - destruct (threads s !! t') as [w'|] eqn:Ht'; [|done].
    destruct (run_crew_async _ _ _ _ _ _) as [[h' pc'] out]. simpl.
    rewrite list_lookup_insert_ne; [done|]. intros ->. by eapply Hev.
Qed.

Lemma step_thread_own s t now oc w d :
  Inv s → threads s !! t = Some w → record_of s (t_kickoff_id w) = Some d →
  threads (step (WorkerStep t now oc) s) !! t
  = Some {| t_kickoff_id := t_kickoff_id w; t_inputs := t_inputs w;
            t_pc := (effect now oc (t_pc w) d).2 |} ∧
  record_of (step (WorkerStep t now oc) s) (t_kickoff_id w)
  = Some (effect now oc (t_pc w) d).1.
Proof.
  intros Hinv Ht (l & Hl & Hd)%record_of_Some. simpl. rewrite Ht.
  rewrite (run_crew_async_bound _ _ _ _ _ _ _ _ Hl Hd). split.
  - simpl. apply list_lookup_insert_eq. by eapply lookup_lt_Some.
  - apply record_of_Some. exists l. simpl. split; [done|].
    apply list_lookup_insert_eq. by eapply lookup_lt_Some.
Qed.

(** ** Schedules, seen from one dictionary or one thread *)

Lemma older_refl d : older d d.
Proof. split; try done; first [by left | by right]. Qed.

Lemma older_evolves a b c : older a b → evolves b c → older a c.
Proof.
  intros [] []. split.
  - eapply state_le_next; eauto.
  - congruence.
  - congruence.
  - eapply stale_trans; eauto.
  - eapply stale_trans; eauto.
  - eapply stale_trans; eauto.
Qed.

Lemma run_record evs s k d :
  Inv s → fresh_run s evs = true → record_of s k = Some d →
  ∃ d', record_of (run evs s) k = Some d' ∧ older d d'.
Proof.
  intros Hinv Hfresh Hd.
  assert (∃ d0, record_of s k = Some d0 ∧ older d d0) as Hgen
    by (exists d; split; [done|apply older_refl]).
  clear Hd. revert s Hinv Hfresh Hgen.
  induction evs as [|ev evs IH]; intros s Hinv Hf Hgen; simpl; [done|].
  apply andb_true_iff in Hf as [Hf Hr].
  destruct Hgen as (d0 & Hd0 & Hold).
  destruct (step_record _ _ _ _ Hinv Hf Hd0) as (d1 & Hd1 & Hev & _).
  apply IH; [by apply Inv_step|done|].
  exists d1. split; [done|]. by eapply older_evolves.
Qed.

Lemma run_cons ev evs s : run (ev :: evs) s = run evs (step ev s).
Proof. done. Qed.

Lemma run_app evs1 evs2 s : run (evs1 ++ evs2) s = run evs2 (run evs1 s).
Proof. apply fold_left_app. Qed.

Lemma ticks_own t now oc evs :
  ticks t (WorkerStep t now oc :: evs) = (now, oc) :: ticks t evs.
Proof. simpl. by rewrite decide_True. Qed.

Lemma ticks_other t ev evs :
  (∀ now oc, ev ≠ WorkerStep t now oc) → ticks t (ev :: evs) = ticks t evs.
Proof.
  intros Hother. destruct ev as [| | |t' now oc]; try done. simpl.
  rewrite decide_False; [done|]. intros ->. by eapply Hother.
Qed.

Lemma solo_cons now oc ts d pc :
  solo ((now, oc) :: ts) (d, pc)
  = solo ts ((effect now oc pc d).1, (effect now oc pc d).2).
Proof. unfold solo. simpl. by destruct (effect now oc pc d). Qed.

Lemma run_thread evs s t w d :
  Inv s → fresh_run s evs = true →
  threads s !! t = Some w → record_of s (t_kickoff_id w) = Some d →
  threads (run evs s) !! t
  = Some {| t_kickoff_id := t_kickoff_id w; t_inputs := t_inputs w;
            t_pc := (solo (ticks t evs) (d, t_pc w)).2 |} ∧
  record_of (run evs s) (t_kickoff_id w)
  = Some (solo (ticks t evs) (d, t_pc w)).1.
Proof.
  revert s w d. induction evs as [|ev evs IH]; intros s w d Hinv Hf Ht Hd.
  { simpl. split; [|done]. by destruct w. }
  simpl in Hf. apply andb_true_iff in Hf as [Hf Hr].
  pose proof (Inv_step _ _ Hinv Hf) as Hinv'. rewrite run_cons.
  assert ((∃ now oc, ev = WorkerStep t now oc) ∨
          (∀ now oc, ev ≠ WorkerStep t now oc)) as [(now & oc & ->)|Hother].
  { destruct ev as [| | |t' now oc]; try by right.
    destruct (decide (t' = t)) as [->|Hne]; [left; eauto|].
    right. congruence. }
  - destruct (step_thread_own _ _ now oc _ _ Hinv Ht Hd) as [Ht' Hd'].
    rewrite ticks_own, solo_cons.
    apply (IH _ _ _ Hinv' Hr Ht' Hd').
  - pose proof (step_thread_other _ _ _ _ Hother Ht) as Ht'.
    destruct (step_record _ _ _ _ Hinv Hf Hd) as (d' & Hd' & _ & Hsame).
    rewrite Hsame in Hd'.
    2:{ destruct ev as [body u now0| | |t' now0 oc0]; simpl; try done.
        - revert Hf. simpl. destruct (validate body); [|done].
          intros Hf%bool_decide_eq_true.
          apply record_of_Some in Hd as (a & Ha & _). congruence.
        - destruct (threads s !! t') as [w'|] eqn:Ht1; [|done]. simpl.
          intros [= Heq]. apply (Hother now0 oc0). f_equal.
          eapply NoDup_lookup; [exact (inv_nodup _ Hinv)| |].
          + by rewrite list_lookup_fmap, Ht1.
          + by rewrite list_lookup_fmap, Ht, Heq. }
    rewrite ticks_other by done.
    apply (IH _ _ _ Hinv' Hr Ht' Hd').
Qed.

(** * Properties *)

(** ** Submission payloads *)

(** C9: a payload is rejected exactly when its [inputs] field is missing or
    is not an object; a rejected payload leaves the process state as it was
    and issues no identifier; a payload whose [inputs] is any object, the
    empty one included, is answered 200 with the identifier drawn, and its
    dictionary and its worker thread exist afterwards. *)
Theorem C9_payload_validation (s : sys) (body : json) (u now : string) :
  let resp := (post_kickoff body u now s).2 in
  let s' := (post_kickoff body u now s).1 in
  (resp = ValidationError422 ↔
     inputs_field body = None ∨
     ∃ v, inputs_field body = Some v ∧ is_object v = false) ∧
  (resp = ValidationError422 →
     s' = s ∧ issued [POST_kickoff body u now] = []) ∧
  (∀ fields, inputs_field body = Some (JObject fields) →
     resp = Ok200 {| KickoffResponse.kickoff_id := u;
                     KickoffResponse.status := "PENDING";
                     KickoffResponse.message := "Crew execution started" |} ∧
     issued [POST_kickoff body u now] = [u] ∧
     record_of s' u = Some {| state := "PENDING"; started_at := now;
                              completed_at := None;
                              last_executed_task := None; error := None;
                              inputs := fields |} ∧
     threads s' = threads s ++ [ {| t_kickoff_id := u; t_inputs := fields;
                                    t_pc := AtSetRunning |} ]) ∧
  (post_kickoff (JObject [("inputs", JObject [])]) u now s).2
  = Ok200 {| KickoffResponse.kickoff_id := u;
             KickoffResponse.status := "PENDING";
             KickoffResponse.message := "Crew execution started" |}.
Proof.
  cbv zeta. unfold post_kickoff, kickoff, inputs_field. simpl issued.
  assert (∀ fields, record_of
            (start_thread u fields (insert_execution u now fields s)) u
          = Some {| state := "PENDING"; started_at := now;
                    completed_at := None; last_executed_task := None;
                    error := None; inputs := fields |}) as Hrec.
  { intros fields. apply record_of_Some. eexists. simpl.
    split; [apply lookup_insert_eq|].
    rewrite lookup_app_r, Nat.sub_diag by lia. reflexivity. }
  split_and!; [| | |done].
  - unfold validate.
    destruct body as [| | | | |fields]; simpl; try (split; [by left|done]).
    destruct (dict_get "inputs" fields) as [v|]; [|split; eauto].
    destruct v; simpl; split; eauto;
      try (by intros [?|(? & [= <-] & ?)]); done.
  - destruct (validate body); simpl; done.
  - intros fields. unfold validate.
    destruct body as [| | | | |fs]; try done.
    intros ->. simpl. split_and!; done.
Qed.

(** ** Unknown identifiers *)

Lemma unknown_step id ev s :
  id ∉ issued [ev] → unknown id s → unknown id (step ev s).
Proof.
  intros Hid [Hk Hreq].
  destruct ev as [body u now|k'|q|t now oc]; simpl in *.
  - unfold post_kickoff, kickoff. destruct (validate body); [|done]. split; simpl; [|done].
    rewrite lookup_insert_ne; [done|]. set_solver.
  - split; simpl; [done|].
    intros q r [Hq|[_ Hq]]%lookup_app_Some; [eauto|].
    apply list_lookup_singleton_Some in Hq as [_ <-]. by left.
  - destruct (requests s !! q) as [r|] eqn:Hq; [|done]. split; simpl; [done|].
    intros q' r' [(-> & <- & _)|[_ Hq']]%list_lookup_insert_Some; [|eauto].
    simpl. intros Hr. right.
    destruct (Hreq _ _ Hq Hr) as [-> | ->]; simpl; [|done].
    by rewrite Hr, Hk.
  - destruct (threads s !! t) as [w|]; [|done].
    destruct (run_crew_async _ _ _ _ _ _) as [[h' pc'] out]. done.
Qed.

Lemma issued_app evs1 evs2 :
  issued (evs1 ++ evs2) = issued evs1 ++ issued evs2.
Proof.
  induction evs1 as [|[body u now| | |] evs1 IH]; simpl; try done.
  destruct (validate body); simpl; by rewrite ?IH.
Qed.

Lemma unknown_run id evs s :
  id ∉ issued evs → unknown id s → unknown id (run evs s).
Proof.
  revert s. induction evs as [|ev evs IH]; intros s Hid Hs; [done|].
  rewrite run_cons. change (ev :: evs) with ([ev] ++ evs) in Hid.
  rewrite issued_app in Hid. apply not_elem_of_app in Hid as [Hev Hevs].
  apply IH; [done|]. by apply unknown_step.
Qed.

(** C6: for an identifier that no accepted submission of the schedule drew,
    there is no dictionary; a status handler asked about it answers 404
    "Execution not found" at its membership test, and that step leaves
    [executions], the dictionaries and the threads as they were. *)
Theorem C6_status_not_found (evs : list event) (id : string) :
  id ∉ issued evs →
  let s := run evs init in
  executions s !! id = None ∧
  (∀ q r resp, requests s !! q = Some r → h_kickoff_id r = id →
     h_pc r = Responded resp → resp = not_found) ∧
  (∀ q r, requests s !! q = Some r → h_kickoff_id r = id →
     let s' := step (StatusStep q) s in
     status_response s' q = Some not_found ∧
     executions s' = executions s ∧ heap s' = heap s ∧
     threads s' = threads s) ∧
  (let q := length (requests s) in
   let s' := run [GET_status id; StatusStep q] s in
   status_response s' q = Some not_found ∧
   executions s' = executions s ∧ heap s' = heap s ∧
   threads s' = threads s).
Proof.
  intros Hid s.
  assert (unknown id s) as [Hk Hreq].
  { apply unknown_run; [done|]. split; [done|]. intros q r Hq. done. }
  split_and!; [done| | |].
  - intros q r resp Hq Hr Hpc.
    destruct (Hreq _ _ Hq Hr) as [Hc|Hc]; congruence.
  - intros q r Hq Hr. simpl. rewrite Hq. unfold status_response. simpl.
    rewrite list_lookup_insert_eq by by eapply lookup_lt_Some.
    split_and!; try done.
    destruct (Hreq _ _ Hq Hr) as [-> | ->]; simpl; [|done].
    by rewrite Hr, Hk.
  - simpl. rewrite lookup_app_r, Nat.sub_diag by lia. simpl.
    unfold status_response. simpl.
    rewrite list_lookup_insert_eq by (rewrite length_app; simpl; lia).
    by rewrite Hk.
Qed.

Lemma C6_status_not_found_witness :
  ("id-2" ∉ issued demo_success) ∧
  status_response
    (run [GET_status "id-2"; StatusStep 0] (run demo_success init)) 0
  = Some not_found.
Proof.
  assert ("id-2" ∉ issued demo_success) as Hid.
  { apply not_elem_of_cons. split; [done|]. apply not_elem_of_nil. }
  split; [exact Hid|].
  exact (proj1 (proj2 (proj2 (proj2
    (C6_status_not_found demo_success "id-2" Hid))))).
Defined.

(** ** Jobs do not interfere *)

Lemma step_ids ev s :
  t_kickoff_id <$> threads (step ev s)
  = (t_kickoff_id <$> threads s) ++ issued [ev].
Proof.
  destruct ev as [body u now|k'|q|t now oc]; simpl.
  - unfold post_kickoff, kickoff. destruct (validate body); simpl.
    + by rewrite fmap_app.
    + by rewrite app_nil_r.
  - by rewrite app_nil_r.
  - rewrite app_nil_r. by destruct (requests s !! q).
  - rewrite app_nil_r. destruct (threads s !! t) as [w|] eqn:Ht; [|done].
    destruct (run_crew_async _ _ _ _ _ _) as [[h' pc'] out]. simpl.
    rewrite list_fmap_insert. simpl. apply list_insert_id.
    by rewrite list_lookup_fmap, Ht.
Qed.

Lemma run_ids evs s :
  t_kickoff_id <$> threads (run evs s)
  = (t_kickoff_id <$> threads s) ++ issued evs.
Proof.
  revert s. induction evs as [|ev evs IH]; intros s.
  - simpl. by rewrite app_nil_r.
  - rewrite run_cons, IH, step_ids. change (ev :: evs) with ([ev] ++ evs).
    by rewrite issued_app, app_assoc.
Qed.

Lemma frame s ev k :
  Inv s → fresh_event s ev = true → writer s ev ≠ Some k →
  record_of (step ev s) k = record_of s k.
Proof.
  intros Hinv Hf Hw. destruct (record_of s k) as [d|] eqn:Hd.
  - destruct (step_record _ _ _ _ Hinv Hf Hd) as (d' & Hd' & _ & Hsame).
    by rewrite Hd', Hsame.
  - destruct (step_record_None _ ev _ Hd Hinv) as [H|(d & _ & _ & _ & H)];
      done.
Qed.

(** C7: the accepted submissions of a schedule receive pairwise distinct
    identifiers, one worker thread each; an event changes no dictionary but
    the one of the job it belongs to; in particular a step of one job's
    worker, whatever the outcome of its workflow, leaves the dictionary of
    every other job as it was. *)
Theorem C7_jobs_do_not_interfere (evs : list event) :
  fresh_run init evs = true →
  let s := run evs init in
  NoDup (issued evs) ∧
  t_kickoff_id <$> threads s = issued evs ∧
  (∀ ev k, fresh_event s ev = true → writer s ev ≠ Some k →
     record_of (step ev s) k = record_of s k) ∧
  (∀ t t' w w' now oc,
     threads s !! t = Some w → threads s !! t' = Some w' → t ≠ t' →
     t_kickoff_id w ≠ t_kickoff_id w' ∧
     record_of (step (WorkerStep t now oc) s) (t_kickoff_id w')
     = record_of s (t_kickoff_id w')).
Proof.
  intros Hf s. pose proof (Inv_reachable _ Hf) as Hinv. fold s in Hinv.
  assert (t_kickoff_id <$> threads s = issued evs) as Hids
    by (unfold s; by rewrite run_ids).
  assert (∀ t t' w w', threads s !! t = Some w → threads s !! t' = Some w' →
            t ≠ t' → t_kickoff_id w ≠ t_kickoff_id w') as Hdistinct.
  { intros t t' w w' Ht Ht' Hne Heq. apply Hne.
    eapply NoDup_lookup; [exact (inv_nodup _ Hinv)| |].
    - by rewrite list_lookup_fmap, Ht.
    - by rewrite list_lookup_fmap, Ht', Heq. }
  split_and!.
  - rewrite <- Hids. apply (inv_nodup _ Hinv).
  - done.
  - intros ev k. by apply frame.
  - intros t t' w w' now oc Ht Ht' Hne. split; [by eapply Hdistinct|].
    apply frame; [done|reflexivity|]. simpl. rewrite Ht. simpl.
    intros [= Heq]. by apply (Hdistinct t t' w w').
Qed.

Lemma C7_jobs_do_not_interfere_witness :
  fresh_run init demo_failure = true ∧
  issued demo_failure = ["id-1"; "id-2"] ∧
  record_of (step (WorkerStep 1 "t2" (Returns (PyObj "" None)))
               (run demo_failure init)) "id-1"
  = record_of (run demo_failure init) "id-1".
Proof.
  assert (fresh_run init demo_failure = true) as Hf by (vm_compute; done).
  split; [exact Hf|]. split; [reflexivity|].
  refine (proj2 (proj2 (proj2 (proj2
    (C7_jobs_do_not_interfere demo_failure Hf))) 1 0
    {| t_kickoff_id := "id-2"; t_inputs := [];
       t_pc := AtSetFailed (Raised "rate limit") |}
    {| t_kickoff_id := "id-1"; t_inputs := [("topic", JString "SQL")];
       t_pc := AtWorkflow |}
    "t2" (Returns (PyObj "" None)) _ _ _)).
  - reflexivity.
  - reflexivity.
  - lia.
Defined.

(** ** How a job ends *)

Lemma solo_Returned ts d : solo ts (d, Returned) = (d, Returned).
Proof. induction ts as [|[now oc] ts IH]; [done|]. by rewrite solo_cons. Qed.

Lemma solo_failed ts d e :
  state d = "RUNNING" → blank d →
  let st := solo ts (d, AtSetFailed e) in
  last_executed_task st.1 = None ∧
  (state st.1 = "RUNNING" ∨ state st.1 = "FAILED") ∧
  (4 ≤ length ts →
   st.2 = Returned ∧ state st.1 = "FAILED" ∧
   error st.1 = Some (exn_str e) ∧ is_Some (completed_at st.1)).
Proof.
  intros Hs (Hc & Ht & He).
  destruct ts as [|[n1 o1] [|[n2 o2] [|[n3 o3] [|[n4 o4] ts]]]];
    rewrite ?solo_cons; simpl; try (split_and!; eauto; lia).
  rewrite solo_Returned. simpl. split_and!; eauto.
Qed.

Lemma solo_succeeded ts d result :
  state d = "RUNNING" → blank d →
  let st := solo ts (d, AtSetSuccess result) in
  error st.1 = None ∧
  (state st.1 = "RUNNING" ∨ state st.1 = "SUCCESS") ∧
  (3 ≤ length ts →
   st.2 = Returned ∧ state st.1 = "SUCCESS" ∧
   last_executed_task st.1 = Some (final_task result) ∧
   is_Some (completed_at st.1)).
Proof.
  intros Hs (Hc & Ht & He).
  destruct ts as [|[n1 o1] [|[n2 o2] [|[n3 o3] ts]]];
    rewrite ?solo_cons; simpl; try (split_and!; eauto; lia).
  rewrite solo_Returned. simpl. split_and!; eauto.
Qed.

(** C4: when the workflow call of a job raises [e], whatever else is
    scheduled afterwards the worker never lets an exception leave
    [run_crew_async]; once it has executed its four handler statements it
    has returned, and the job's dictionary has state FAILED, [str(e)] as its
    error, a completion time and no result.  The submitter's response was
    PENDING: [kickoff] answers before, and without, the workflow. *)
Theorem C4_workflow_failure_recorded (evs0 evs : list event) (t : nat)
    (w : thread) (now : string) (e : exn) :
  let s := run evs0 init in
  let s' := run (WorkerStep t now (Raises e) :: evs) s in
  fresh_run init evs0 = true →
  threads s !! t = Some w → t_pc w = AtWorkflow →
  fresh_run s (WorkerStep t now (Raises e) :: evs) = true →
  (∃ w' d', threads s' !! t = Some w' ∧
     t_kickoff_id w' = t_kickoff_id w ∧ (∀ e', t_pc w' ≠ Died e') ∧
     record_of s' (t_kickoff_id w) = Some d' ∧
     last_executed_task d' = None ∧
     (state d' = "RUNNING" ∨ state d' = "FAILED") ∧
     (4 ≤ length (ticks t evs) →
      t_pc w' = Returned ∧ state d' = "FAILED" ∧
      error d' = Some (exn_str e) ∧ is_Some (completed_at d'))) ∧
  (∀ body u now0 s0, validate body ≠ None →
     (post_kickoff body u now0 s0).2
     = Ok200 {| KickoffResponse.kickoff_id := u;
                KickoffResponse.status := "PENDING";
                KickoffResponse.message := "Crew execution started" |}).
Proof.
  intros s s' Hf0 Ht Hpc Hf.
  pose proof (Inv_reachable _ Hf0) as Hinv. fold s in Hinv.
  pose proof (Inv_run _ _ Hinv Hf) as Hinv'. fold s' in Hinv'.
  destruct (inv_phase _ Hinv _ _ Ht) as (l & d & Hl & Hd & Hp & _).
  assert (record_of s (t_kickoff_id w) = Some d) as Hrec
    by (apply record_of_Some; eauto).
  destruct (run_thread _ _ _ _ _ Hinv Hf Ht Hrec) as [Ht' Hd'].
  fold s' in Ht', Hd'.
  rewrite ticks_own, solo_cons, Hpc in Ht', Hd'. simpl in Ht', Hd'.
  rewrite Hpc in Hp. destruct Hp as [Hs Hb].
  destruct (solo_failed (ticks t evs) d e Hs Hb) as (Hlt & Hst & Hdone).
  split.
  - eexists _, _. split; [exact Ht'|]. split; [done|]. split.
    { intros e' He'.
      destruct (inv_phase _ Hinv' _ _ Ht') as (? & ? & _ & _ & Hp' & _).
      simpl in Hp', He'. by rewrite He' in Hp'. }
    split; [exact Hd'|]. split; [done|]. split; [done|]. done.
  - intros body u now0 s0 Hv. unfold post_kickoff, kickoff.
    by destruct (validate body).
Qed.

Lemma C4_workflow_failure_recorded_witness :
  fresh_run init before_failure = true ∧
  ∃ w' d', threads failure_final !! 1 = Some w' ∧ t_pc w' = Returned ∧
           record_of failure_final "id-2" = Some d' ∧
           state d' = "FAILED" ∧ error d' = Some "rate limit".
Proof.
  split; [reflexivity|].
  destruct (proj1 (C4_workflow_failure_recorded before_failure after_failure
    1 {| t_kickoff_id := "id-2"; t_inputs := []; t_pc := AtWorkflow |}
    "t1" (Raised "rate limit") eq_refl eq_refl eq_refl eq_refl))
    as (w' & d' & Ht & _ & _ & Hd & _ & _ & Hdone).
  destruct Hdone as (Hpc & Hs & He & _); [simpl; lia|].
  exists w', d'. done.
Defined.

(** C8: when the workflow call of a job returns [result], whatever else is
    scheduled afterwards, once the worker has executed its three remaining
    statements it has returned and the job's dictionary has state SUCCESS,
    no error, a completion time, and as its result the pair of
    [str(result.raw)] when [result] has a [raw] attribute, [str(result)]
    otherwise, with the task name "final_output_assembly". *)
Theorem C8_workflow_success_recorded (evs0 evs : list event) (t : nat)
    (w : thread) (now : string) (result : pyobj) :
  let s := run evs0 init in
  let s' := run (WorkerStep t now (Returns result) :: evs) s in
  fresh_run init evs0 = true →
  threads s !! t = Some w → t_pc w = AtWorkflow →
  fresh_run s (WorkerStep t now (Returns result) :: evs) = true →
  3 ≤ length (ticks t evs) →
  ∃ w' d' r, threads s' !! t = Some w' ∧ t_pc w' = Returned ∧
    record_of s' (t_kickoff_id w) = Some d' ∧
    state d' = "SUCCESS" ∧ error d' = None ∧ is_Some (completed_at d') ∧
    last_executed_task d' = Some r ∧
    task_name r = "final_output_assembly" ∧
    (∀ raw, getattr_raw result = Some raw → output r = py_str raw) ∧
    (getattr_raw result = None → output r = py_str result).
Proof.
  intros s s' Hf0 Ht Hpc Hf Hlen.
  pose proof (Inv_reachable _ Hf0) as Hinv. fold s in Hinv.
  destruct (inv_phase _ Hinv _ _ Ht) as (l & d & Hl & Hd & Hp & _).
  assert (record_of s (t_kickoff_id w) = Some d) as Hrec
    by (apply record_of_Some; eauto).
  destruct (run_thread _ _ _ _ _ Hinv Hf Ht Hrec) as [Ht' Hd'].
  fold s' in Ht', Hd'.
  rewrite ticks_own, solo_cons, Hpc in Ht', Hd'. simpl in Ht', Hd'.
  rewrite Hpc in Hp. destruct Hp as [Hs Hb].
  destruct (solo_succeeded (ticks t evs) d result Hs Hb) as (He & _ & Hdone).
  destruct (Hdone Hlen) as (Hret & Hst & Hlt & Hc).
  eexists _, _, (final_task result).
  split; [exact Ht'|]. split; [done|]. split; [exact Hd'|].
  split_and!; try done.
  - intros raw Hraw. unfold final_task. simpl. by rewrite Hraw.
  - intros Hraw. unfold final_task. simpl. by rewrite Hraw.
Qed.

Lemma C8_workflow_success_recorded_witness :
  fresh_run init before_success = true ∧
  ∃ d' r, record_of success_final "id-1" = Some d' ∧
          state d' = "SUCCESS" ∧ last_executed_task d' = Some r ∧
          output r = "final".
Proof.
  split; [reflexivity|].
  destruct (C8_workflow_success_recorded before_success after_success 0
    {| t_kickoff_id := "id-1"; t_inputs := [("topic", JString "SQL")];
       t_pc := AtWorkflow |}
    "t1" crew_output eq_refl eq_refl eq_refl eq_refl)
    as (w' & d' & r & _ & _ & Hd & Hs & _ & _ & Hr & _ & Hraw & _).
  { simpl. lia. }
  exists d', r. split_and!; try done.
  exact (Hraw (PyObj "final" None) eq_refl).
Defined.

(** ** The life cycle of a job *)

Lemma compress_path a l :
  path (a :: l) →
  (a = "PENDING" →
   ∃ fin, (fin = "SUCCESS" ∨ fin = "FAILED") ∧
          compress (a :: l) `prefix_of` ["PENDING"; "RUNNING"; fin]) ∧
  (a = "RUNNING" →
   ∃ fin, (fin = "SUCCESS" ∨ fin = "FAILED") ∧
          compress (a :: l) `prefix_of` ["RUNNING"; fin]) ∧
  (a = "SUCCESS" ∨ a = "FAILED" → compress (a :: l) = [a]).
Proof.
  revert a. induction l as [|b l IH]; intros a Hp.
  - simpl. split_and!.
    + intros ->. exists "SUCCESS". split; [by left|]. by exists ["RUNNING"; "SUCCESS"].
    + intros ->. exists "SUCCESS". split; [by left|]. by exists ["SUCCESS"].
    + done.
  - destruct Hp as [Hn Hp]. destruct (IH b Hp) as (IHP & IHR & IHT).
    change (compress (a :: b :: l))
      with (if decide (a = b) then compress (b :: l) else a :: compress (b :: l)).
    destruct Hn as [->|[[-> ->]|[-> Hb]]].
    + rewrite decide_True by done. done.
    + rewrite decide_False by done. split_and!; try done; [|by intros [|]].
      intros _. destruct (IHR eq_refl) as (fin & Hfin & Hpre).
      exists fin. split; [done|]. by apply prefix_cons.
    + assert ("RUNNING" ≠ b) by (by destruct Hb as [->| ->]).
      rewrite decide_False by done. split_and!; try done; [|by intros [|]].
      intros _. exists b. split; [done|]. rewrite (IHT Hb). done.
Qed.

Lemma states_seen_path k evs s :
  Inv s → fresh_run s evs = true →
  path (states_seen k s evs) ∧
  match record_of s k with
  | Some d => ∃ l, states_seen k s evs = state d :: l
  | None =>
      states_seen k s evs = [] ∨ ∃ l, states_seen k s evs = "PENDING" :: l
  end.
Proof.
  revert s. induction evs as [|ev evs IH]; intros s Hinv Hf.
  { simpl. destruct (record_of s k) as [d|]; simpl; eauto. }
  simpl in Hf. apply andb_true_iff in Hf as [Hf Hr].
  destruct (IH _ (Inv_step _ _ Hinv Hf) Hr) as [Hpath Hhead].
  cbn [states_seen]. destruct (record_of s k) as [d|] eqn:Hd; simpl.
  - destruct (step_record _ _ _ _ Hinv Hf Hd) as (d' & Hd' & Hev & _).
    rewrite Hd' in Hhead. destruct Hhead as [l Hl]. rewrite Hl in *.
    split; [|eauto]. split; [apply Hev|done].
  - split; [done|].
    destruct (step_record_None _ ev _ Hd Hinv) as [Hn|(d & Hd' & Hs & _)].
    + by rewrite Hn in Hhead.
    + rewrite Hd' in Hhead. destruct Hhead as [l Hl]. right.
      exists l. by rewrite Hl, Hs.
Qed.

Lemma state_le_terminal a b :
  a = "SUCCESS" ∨ a = "FAILED" → state_le a b → a = b.
Proof. intros [->| ->] [?|[[? _]|[? _]]]; done. Qed.

(** C2: along any schedule the states shown by the dictionary of a job,
    repetitions removed, form a prefix of PENDING, RUNNING, SUCCESS or of
    PENDING, RUNNING, FAILED; and once the dictionary shows SUCCESS or
    FAILED it shows that state after every further schedule. *)
Theorem C2_state_sequence (evs : list event) (k : string) :
  fresh_run init evs = true →
  (∃ fin, (fin = "SUCCESS" ∨ fin = "FAILED") ∧
     compress (states_seen k init evs)
       `prefix_of` ["PENDING"; "RUNNING"; fin]) ∧
  (∀ evs' d, record_of (run evs init) k = Some d →
     state d = "SUCCESS" ∨ state d = "FAILED" →
     fresh_run (run evs init) evs' = true →
     ∃ d', record_of (run (evs ++ evs') init) k = Some d' ∧
           state d' = state d).
Proof.
  intros Hf. split.
  - destruct (states_seen_path k evs init Inv_init Hf) as [Hpath Hhead].
    change (record_of init k) with (@None execution) in Hhead.
    destruct Hhead as [->|[l Hl]].
    + exists "SUCCESS". split; [by left|]. apply prefix_nil.
    + rewrite Hl in *. by apply (compress_path "PENDING" l Hpath).
  - intros evs' d Hd Hterm Hf'.
    destruct (run_record evs' _ k d (Inv_reachable _ Hf) Hf' Hd)
      as (d' & Hd' & Hold).
    exists d'. rewrite run_app. split; [done|]. symmetry.
    apply state_le_terminal; [done|]. apply Hold.
Qed.

Lemma C2_state_sequence_witness :
  fresh_run init success_schedule = true ∧
  compress (states_seen "id-1" init success_schedule)
  = ["PENDING"; "RUNNING"; "SUCCESS"] ∧
  ∃ fin, (fin = "SUCCESS" ∨ fin = "FAILED") ∧
    compress (states_seen "id-1" init success_schedule)
      `prefix_of` ["PENDING"; "RUNNING"; fin].
Proof.
  split; [reflexivity|]. split; [reflexivity|].
  exact (proj1 (C2_state_sequence success_schedule "id-1" eq_refl)).
Defined.

(** ** Result, error and completion time *)

Lemma record_sound s k d : Inv s → record_of s k = Some d → sound d.
Proof.
  intros Hinv (l & Hl & Hd)%record_of_Some.
  destruct (inv_owner _ Hinv _ _ Hl) as (t & w & Ht & <-).
  destruct (inv_phase _ Hinv _ _ Ht) as (l' & d' & Hl' & Hd' & Hp & _).
  assert (d' = d) as -> by congruence. by eapply phase_sound.
Qed.

Lemma status_response_Some s q resp :
  status_response s q = Some resp ↔
  ∃ r, requests s !! q = Some r ∧ h_pc r = Responded resp.
Proof.
  unfold status_response. destruct (requests s !! q) as [[k pc]|]; simpl.
  - destruct pc; split; try done; try by intros (? & [= <-] & ?).
    + intros [= ->]. eauto.
    + by intros (? & [= <-] & [= ->]).
  - split; [done|]. by intros (? & ? & ?).
Qed.

Lemma response_fits s q b :
  Inv s → status_response s q = Some (Ok200 b) →
  ∃ r d, requests s !! q = Some r ∧
         record_of s (h_kickoff_id r) = Some d ∧ sound d ∧
         fits (Responded (Ok200 b)) d.
Proof.
  intros Hinv (r & Hq & Hpc)%status_response_Some.
  pose proof (inv_seen _ Hinv _ _ Hq) as Hseen. rewrite Hpc in Hseen.
  destruct (Hseen eq_refl) as (l & d & Hl & Hd & _ & Hfits).
  assert (record_of s (h_kickoff_id r) = Some d) as Hrec
    by (apply record_of_Some; eauto).
  exists r, d. split_and!; try done. by eapply record_sound.
Qed.

Lemma not_both {A B} (x : option A) (y : option B) :
  (is_Some x → y = None) → ¬ (is_Some x ∧ is_Some y).
Proof. intros H [Hx [? Hy]]. rewrite (H Hx) in Hy. done. Qed.

(** C3, as the code has it: in the dictionary of a job, at every point of
    every schedule, a result is present only in state SUCCESS and an error
    only in state FAILED, both are absent in states PENDING and RUNNING, and
    they are never both present; once the job's worker has returned, the
    result is present exactly in state SUCCESS and the error exactly in state
    FAILED.  In a status response the result and the error are never both
    present, a response with state SUCCESS has no error and a response with
    state FAILED has no result. *)
Theorem C3_result_and_error (evs : list event) :
  fresh_run init evs = true →
  let s := run evs init in
  (∀ k d, record_of s k = Some d →
     (is_Some (last_executed_task d) → state d = "SUCCESS") ∧
     (is_Some (error d) → state d = "FAILED") ∧
     (state d = "PENDING" ∨ state d = "RUNNING" →
      last_executed_task d = None ∧ error d = None) ∧
     ¬ (is_Some (last_executed_task d) ∧ is_Some (error d))) ∧
  (∀ t w d, threads s !! t = Some w → t_pc w = Returned →
     record_of s (t_kickoff_id w) = Some d →
     (is_Some (last_executed_task d) ↔ state d = "SUCCESS") ∧
     (is_Some (error d) ↔ state d = "FAILED")) ∧
  (∀ q b, status_response s q = Some (Ok200 b) →
     ¬ (is_Some (StatusResponse.last_executed_task b) ∧
        is_Some (StatusResponse.error b)) ∧
     (StatusResponse.state b = "SUCCESS" → StatusResponse.error b = None) ∧
     (StatusResponse.state b = "FAILED" →
      StatusResponse.last_executed_task b = None)).
Proof.
  intros Hf s. pose proof (Inv_reachable _ Hf) as Hinv. fold s in Hinv.
  split_and!.
  - intros k d Hd. destruct (record_sound _ _ _ Hinv Hd) as [Hst Ht He Hc].
    split_and!.
    + intros H. by apply Ht.
    + intros H. by apply He.
    + intros Hpr.
      destruct (last_executed_task d) as [x|] eqn:Hx.
      { destruct Ht as [Hs _]; [done|]. destruct Hpr; congruence. }
      destruct (error d) as [y|] eqn:Hy; [|done].
      destruct He as [Hs _]; [done|]. destruct Hpr; congruence.
    + apply not_both. intros H. by apply Ht.
  - intros t w d Ht Hpc Hd.
    destruct (inv_phase _ Hinv _ _ Ht) as (l & d' & Hl & Hd' & Hp & _).
    apply record_of_Some in Hd as (l' & Hl' & Hd).
    assert (d' = d) as -> by congruence.
    rewrite Hpc in Hp. simpl in Hp.
    destruct Hp as [(Hs & _ & Hlt & He)|(Hs & _ & Hlt & He)];
      rewrite Hs, ?Hlt, ?He; split; split; try done;
      try (by intros []).
  - intros q b Hq.
    destruct (response_fits _ _ _ Hinv Hq)
      as (r & d & _ & Hd & [Hst Ht He Hc] & [Fs Ft _ _ Fe]).
    simpl in Fs, Ft, Fe. specialize (Fs _ eq_refl). split_and!.
    + apply not_both. intros Hlt. destruct Ft as [Ft|Ft].
      { rewrite Ft in Hlt. by destruct Hlt. }
      rewrite Ft in Hlt. destruct (Ht Hlt) as (_ & Hen & _).
      destruct Fe as [Fe|Fe]; congruence.
    + intros Hs. rewrite Hs in Fs.
      apply state_le_terminal in Fs; [|by left].
      destruct Fe as [Fe|Fe]; [done|]. rewrite Fe.
      destruct (error d) as [y|] eqn:Hy; [|done].
      destruct He as [Hs' _]; [done|]. congruence.
    + intros Hs. rewrite Hs in Fs.
      apply state_le_terminal in Fs; [|by right].
      destruct Ft as [Ft|Ft]; [done|]. rewrite Ft.
      destruct (last_executed_task d) as [x|] eqn:Hx; [|done].
      destruct Ht as [Hs' _]; [done|]. congruence.
Qed.

Lemma C3_counterexample :
  fresh_run init torn_success = true ∧
  record_of (run torn_success init) "id-1"
  = Some {| state := "SUCCESS"; started_at := "t0"; completed_at := None;
            last_executed_task := None; error := None;
            inputs := [("topic", JString "SQL")] |} ∧
  status_response (run torn_success init) 0 = Some (Ok200 torn_response) ∧
  ¬ (∀ d, record_of (run torn_success init) "id-1" = Some d →
          (is_Some (last_executed_task d) ↔ state d = "SUCCESS")).
Proof.
  split; [reflexivity|]. split; [reflexivity|]. split; [reflexivity|].
  intros H. destruct (H _ eq_refl) as [_ Hs].
  destruct (Hs eq_refl) as [x Hx]. discriminate Hx.
Qed.

Lemma C3_result_and_error_witness :
  fresh_run init torn_success = true ∧
  (StatusResponse.state torn_response = "SUCCESS" →
   StatusResponse.error torn_response = None).
Proof.
  split; [reflexivity|].
  exact (proj1 (proj2 (proj2 (proj2
    (C3_result_and_error torn_success eq_refl)) 0 torn_response eq_refl))).
Defined.

(** The reads of a status handler are separate: the state can be read
    before the worker finishes and the result after. *)
Example stale_state_in_response :
  status_response
    (run [POST_kickoff sql_body "id-1" "t0";
          WorkerStep 0 "t1" (Returns crew_output);
          GET_status "id-1"; StatusStep 0; StatusStep 0; StatusStep 0;
          WorkerStep 0 "t1" (Returns crew_output);
          WorkerStep 0 "t2" (Returns crew_output);
          WorkerStep 0 "t2" (Returns crew_output);
          WorkerStep 0 "t3" (Returns crew_output);
          StatusStep 0; StatusStep 0; StatusStep 0; StatusStep 0] init) 0
  = Some (Ok200 {| StatusResponse.state := "RUNNING";
                   StatusResponse.last_executed_task :=
                     Some {| output := "final";
                             task_name := "final_output_assembly" |};
                   StatusResponse.started_at := Some "t0";
                   StatusResponse.completed_at := Some "t2";
                   StatusResponse.error := None |}).
Proof. reflexivity. Qed.

(** C5, as the code has it: in the dictionary of a job, at every point of
    every schedule, a completion time is present only in state SUCCESS or
    FAILED and absent in states PENDING and RUNNING; once the job's worker
    has returned it is present and the state is SUCCESS or FAILED.  It is
    written once: the step that writes it is a step of the job's own worker,
    taken when the state is already SUCCESS or FAILED and leaving the state
    as it is, and no later step changes it. *)
Theorem C5_completed_at (evs : list event) :
  fresh_run init evs = true →
  let s := run evs init in
  (∀ k d, record_of s k = Some d →
     (is_Some (completed_at d) →
      state d = "SUCCESS" ∨ state d = "FAILED") ∧
     (state d = "PENDING" ∨ state d = "RUNNING" → completed_at d = None)) ∧
  (∀ t w d, threads s !! t = Some w → t_pc w = Returned →
     record_of s (t_kickoff_id w) = Some d →
     is_Some (completed_at d) ∧
     (state d = "SUCCESS" ∨ state d = "FAILED")) ∧
  (∀ ev k d d', fresh_event s ev = true →
     record_of s k = Some d → record_of (step ev s) k = Some d' →
     completed_at d = None → is_Some (completed_at d') →
     writer s ev = Some k ∧ state d' = state d ∧
     (state d = "SUCCESS" ∨ state d = "FAILED")) ∧
  (∀ evs' k d c, record_of s k = Some d → completed_at d = Some c →
     fresh_run s evs' = true →
     ∃ d', record_of (run (evs ++ evs') init) k = Some d' ∧
           completed_at d' = Some c).
Proof.
  intros Hf s. pose proof (Inv_reachable _ Hf) as Hinv. fold s in Hinv.
  split_and!.
  - intros k d Hd. destruct (record_sound _ _ _ Hinv Hd) as [Hst Ht He Hc].
    split; [done|]. intros Hpr.
    destruct (completed_at d) as [c|] eqn:Hcd; [|done].
    destruct Hc as [Hs|Hs]; [done| |]; destruct Hpr; congruence.
  - intros t w d Ht Hpc Hd.
    destruct (inv_phase _ Hinv _ _ Ht) as (l & d' & Hl & Hd' & Hp & _).
    apply record_of_Some in Hd as (l' & Hl' & Hd).
    assert (d' = d) as -> by congruence.
    rewrite Hpc in Hp. simpl in Hp.
    destruct Hp as [(Hs & Hc & _)|(Hs & Hc & _)]; eauto.
  - intros ev k d d' Hfe Hd Hd' Hnone Hsome.
    destruct (step_record _ _ _ _ Hinv Hfe Hd) as (d'' & Hd'' & Hev & Hsame).
    assert (d'' = d') as -> by congruence.
    destruct (ev_completed_state _ _ Hev Hnone Hsome) as [Hs Hterm].
    split_and!; try done.
    destruct (decide (writer s ev = Some k)) as [|Hne]; [done|].
    rewrite (Hsame Hne), Hnone in Hsome. by destruct Hsome.
  - intros evs' k d c Hd Hc Hf'.
    destruct (run_record evs' _ k d Hinv Hf' Hd) as (d' & Hd' & Hold).
    exists d'. rewrite run_app. split; [done|].
    destruct (old_completed_at _ _ Hold) as [Hn|Hn]; congruence.
Qed.

Lemma C5_counterexample :
  fresh_run init torn_failure = true ∧
  record_of (run torn_failure init) "id-1" = Some torn_failure_record ∧
  status_response (run torn_failure init) 0
  = Some (Ok200 {| StatusResponse.state := "FAILED";
                   StatusResponse.last_executed_task := None;
                   StatusResponse.started_at := Some "t0";
                   StatusResponse.completed_at := None;
                   StatusResponse.error := None |}) ∧
  ¬ (∀ d, record_of (run torn_failure init) "id-1" = Some d →
          (is_Some (completed_at d) ↔
           state d = "SUCCESS" ∨ state d = "FAILED")).
Proof.
  split; [reflexivity|]. split; [reflexivity|]. split; [reflexivity|].
  intros H. destruct (H _ eq_refl) as [_ Hs].
  destruct (Hs (or_intror eq_refl)) as [x Hx]. discriminate Hx.
Qed.

Lemma C5_completed_at_witness :
  fresh_run init torn_failure = true ∧
  (state torn_failure_record = "PENDING" ∨
   state torn_failure_record = "RUNNING" →
   completed_at torn_failure_record = None).
Proof.
  split; [reflexivity|].
  exact (proj2 (proj1 (C5_completed_at torn_failure eq_refl)
                  "id-1" torn_failure_record eq_refl)).
Defined.

(** ** Submitting, then polling *)

Lemma get_status_needs_key (ex : gmap string loc) (h : list execution) k pc :
  is_Some (ex !! k) → pc = AtCheck ∨ needs_key pc = true →
  needs_key (get_status k ex h pc) = true.
Proof.
  intros [l Hl] [->|Hn]; simpl; [by rewrite Hl|].
  destruct pc as [| |a|a st|a st lt|a st lt sa|a st lt sa ca|r]; simpl;
    try done; try by destruct (h !! a).
  by rewrite Hl.
Qed.

Lemma pollable_step u n0 ev s : pollable u n0 s → pollable u n0 (step ev s).
Proof.
  intros [Hk Hreq].
  destruct ev as [body u' now|k'|q|t now oc]; simpl.
  - unfold post_kickoff, kickoff. destruct (validate body); [|done]. split; simpl; [|done].
    apply lookup_insert_is_Some'. by right.
  - split; simpl; [done|].
    intros q r Hq [Hr|[_ Hr]]%lookup_app_Some; [eauto|].
    apply list_lookup_singleton_Some in Hr as [_ <-]. by left.
  - destruct (requests s !! q) as [r|] eqn:Hq; [|done]. split; simpl; [done|].
    intros q' r' Hle [(-> & <- & _)|[_ Hq']]%list_lookup_insert_Some; [|eauto].
    simpl. intros Hr. right. rewrite Hr.
    apply get_status_needs_key; [done|]. by eapply Hreq.
  - destruct (threads s !! t) as [w|]; [|done].
    destruct (run_crew_async _ _ _ _ _ _) as [[h' pc'] out]. done.
Qed.

Lemma pollable_run u n0 evs s : pollable u n0 s → pollable u n0 (run evs s).
Proof.
  revert s. induction evs as [|ev evs IH]; intros s Hs; [done|].
  rewrite run_cons. by apply IH, pollable_step.
Qed.

Lemma poll_steps n s q k pc :
  requests s !! q = Some {| h_kickoff_id := k; h_pc := pc |} →
  run (repeat (StatusStep q) n) s
  = {| executions := executions s; heap := heap s; threads := threads s;
       requests :=
         <[q := {| h_kickoff_id := k;
                   h_pc := Nat.iter n (get_status k (executions s) (heap s))
                             pc |}]> (requests s);
       stdout := stdout s |}.
Proof.
  revert s pc. induction n as [|n IH]; intros s pc Hq.
  - simpl. rewrite list_insert_id by done. by destruct s.
  - cbn [repeat]. rewrite run_cons. simpl step. rewrite Hq.
    erewrite IH.
    2:{ simpl. apply list_lookup_insert_eq. by eapply lookup_lt_Some. }
    simpl. rewrite list_insert_insert_eq. by rewrite <- Nat.iter_succ_r.
Qed.

Lemma poll_answers s u d :
  record_of s u = Some d →
  status_response
    (run (GET_status u :: repeat (StatusStep (length (requests s))) 7) s)
    (length (requests s))
  = Some (Ok200 (snapshot d)).
Proof.
  intros (l & Hl & Hd)%record_of_Some. rewrite run_cons.
  erewrite poll_steps.
  2:{ simpl. rewrite lookup_app_r, Nat.sub_diag by lia. reflexivity. }
  unfold status_response. simpl.
  rewrite list_lookup_insert_eq by (rewrite length_app; simpl; lia).
  rewrite Hl. repeat (cbn [get_status]; first [rewrite Hl | rewrite Hd]).
  done.
Qed.

Lemma state_le_before a b :
  b = "PENDING" ∨ b = "RUNNING" → state_le a b →
  a = "PENDING" ∨ a = "RUNNING".
Proof.
  intros [->| ->] [->|[[-> _]|[-> [?|?]]]]; try done; eauto.
Qed.

(** C1: an accepted submission stores the job's dictionary, in state PENDING
    with its start time and with no completion time, result or error, before
    the worker thread exists, then starts the thread and answers with the
    identifier drawn.  Afterwards, whatever is scheduled, the dictionary is
    there; no status request for the identifier issued after the submission
    is answered with an error; a status request run to its end answers with
    the dictionary's fields; and as long as the job's worker has stored
    neither SUCCESS nor FAILED, the dictionary and every status response for
    the identifier show PENDING or RUNNING. *)
Theorem C1_submit_then_poll (evs0 evs : list event) (body : json)
    (u now : string) (request_inputs : list (string * json)) :
  let s0 := run evs0 init in
  let s1 := insert_execution u now request_inputs s0 in
  let s2 := start_thread u request_inputs s1 in
  let s' := run evs s2 in
  fresh_run init evs0 = true →
  validate body = Some request_inputs →
  executions s0 !! u = None →
  fresh_run s2 evs = true →
  post_kickoff body u now s0
  = (s2, Ok200 {| KickoffResponse.kickoff_id := u;
                  KickoffResponse.status := "PENDING";
                  KickoffResponse.message := "Crew execution started" |}) ∧
  record_of s1 u = Some {| state := "PENDING"; started_at := now;
                           completed_at := None; last_executed_task := None;
                           error := None; inputs := request_inputs |} ∧
  threads s1 = threads s0 ∧
  (∀ w, w ∈ threads s1 → t_kickoff_id w ≠ u) ∧
  threads s2 = threads s0 ++ [ {| t_kickoff_id := u;
                                  t_inputs := request_inputs;
                                  t_pc := AtSetRunning |} ] ∧
  (∃ d, record_of s' u = Some d ∧
        status_response
          (run (GET_status u
                  :: repeat (StatusStep (length (requests s'))) 7) s')
          (length (requests s'))
        = Some (Ok200 (snapshot d))) ∧
  (∀ q r resp, length (requests s0) ≤ q → requests s' !! q = Some r →
     h_kickoff_id r = u → h_pc r = Responded resp → ∃ b, resp = Ok200 b) ∧
  (∀ w, threads s' !! length (threads s0) = Some w →
     t_kickoff_id w = u ∧
     (before_terminal (t_pc w) = true →
      (∃ d, record_of s' u = Some d ∧
            (state d = "PENDING" ∨ state d = "RUNNING")) ∧
      ∀ q r b, requests s' !! q = Some r → h_kickoff_id r = u →
               h_pc r = Responded (Ok200 b) →
               StatusResponse.state b = "PENDING" ∨
               StatusResponse.state b = "RUNNING")).
Proof.
  intros s0 s1 s2 s' Hf0 Hv Hfresh Hf.
  pose proof (Inv_reachable _ Hf0) as Hinv0. fold s0 in Hinv0.
  assert (s2 = step (POST_kickoff body u now) s0) as Hs2
    by (simpl; unfold post_kickoff, kickoff; by rewrite Hv).
  assert (Inv s2) as Hinv2.
  { rewrite Hs2. apply Inv_step; [done|]. simpl. rewrite Hv.
    by apply bool_decide_eq_true. }
  pose proof (Inv_run _ _ Hinv2 Hf) as Hinv'. fold s' in Hinv'.
  assert (record_of s1 u
          = Some {| state := "PENDING"; started_at := now;
                    completed_at := None; last_executed_task := None;
                    error := None; inputs := request_inputs |}) as Hrec1.
  { apply record_of_Some. eexists. simpl.
    split; [apply lookup_insert_eq|].
    rewrite lookup_app_r, Nat.sub_diag by lia. reflexivity. }
  assert (∃ d, record_of s' u = Some d) as [d Hd].
  { destruct (run_record evs s2 u _ Hinv2 Hf Hrec1) as (d & Hd & _).
    eauto. }
  assert (threads s2 !! length (threads s0)
          = Some {| t_kickoff_id := u; t_inputs := request_inputs;
                    t_pc := AtSetRunning |}) as Ht2.
  { simpl. rewrite lookup_app_r, Nat.sub_diag by lia. reflexivity. }
  split_and!.
  - unfold post_kickoff, kickoff. by rewrite Hv.
  - done.
  - done.
  - intros w Hw Heq. apply list_elem_of_lookup in Hw as [t Ht].
    destruct (inv_phase _ Hinv0 _ _ Ht) as (l & ? & Hl & _).
    simpl in Ht. congruence.
  - done.
  - exists d. split; [done|]. by apply poll_answers.
  - intros q r resp Hq Hr Hid Hpc.
    assert (pollable u (length (requests s0)) s') as [_ Hp].
    { apply pollable_run. split; [|simpl].
      - simpl. rewrite lookup_insert_eq. by eexists.
      - intros q' r' Hq' Hr'. apply lookup_lt_Some in Hr'. lia. }
    destruct (Hp _ _ Hq Hr Hid) as [Hc|Hn]; [congruence|].
    rewrite Hpc in Hn. destruct resp; try done. eauto.
  - intros w Hw.
    destruct (run_thread evs s2 _ _ _ Hinv2 Hf Ht2 Hrec1) as [Hw' _].
    fold s' in Hw'. rewrite Hw in Hw'. injection Hw' as ->. simpl.
    split; [done|]. intros Hbt.
    destruct (inv_phase _ Hinv' _ _ Hw) as (l & d' & Hl & Hd' & Hp & _).
    simpl in Hl, Hp.
    assert (d' = d) as ->.
    { apply record_of_Some in Hd as (l' & Hl' & Hd). congruence. }
    assert (state d = "PENDING" ∨ state d = "RUNNING") as Hst.
    { destruct (solo _ _).2; simpl in Hbt, Hp; try done; intuition. }
    split; [eauto|].
    intros q r b Hq Hid Hpc.
    pose proof (inv_seen _ Hinv' _ _ Hq) as Hseen.
    rewrite Hpc, Hid in Hseen.
    destruct (Hseen eq_refl) as (l' & d' & Hl' & Hd'' & _ & [Fs _ _ _ _]).
    assert (d' = d) as -> by congruence.
    eapply state_le_before; [exact Hst|]. by apply Fs.
Qed.

Lemma C1_submit_then_poll_witness :
  validate sql_body = Some [("topic", JString "SQL")] ∧
  executions init !! "id-1" = None ∧
  record_of (insert_execution "id-1" "t0" [("topic", JString "SQL")] init)
    "id-1"
  = Some {| state := "PENDING"; started_at := "t0"; completed_at := None;
            last_executed_task := None; error := None;
            inputs := [("topic", JString "SQL")] |}.
Proof.
  split; [reflexivity|]. split; [reflexivity|].
  exact (proj1 (proj2 (C1_submit_then_poll []
    [WorkerStep 0 "t1" (Returns crew_output); GET_status "id-1";
     StatusStep 0; StatusStep 0; StatusStep 0]
    sql_body "id-1" "t0" [("topic", JString "SQL")]
    eq_refl eq_refl eq_refl eq_refl))).
Defined.

(** After a submission and one worker step, a poll run to its end. *)
Example poll_after_submit :
  status_response
    (run ([POST_kickoff sql_body "id-1" "t0";
           WorkerStep 0 "t1" (Returns crew_output);
           GET_status "id-1"] ++ repeat (StatusStep 0) 7) init) 0
  = Some (Ok200 {| StatusResponse.state := "RUNNING";
                   StatusResponse.last_executed_task := None;
                   StatusResponse.started_at := Some "t0";
                   StatusResponse.completed_at := None;
                   StatusResponse.error := None |}).
Proof. reflexivity. Qed.
